(** * CachedLoader: cache-based write reduction

    A shallow embedding of [src/atc/cache/CachedLoader.py].  Spark data
    frames are lists of positional rows under a list of column names, the
    Delta cache table is a versioned list of cache rows, and [save] is a
    computation in a state-and-exception monad over the loader counters,
    the cache table and a trace of the calls made to the pluggable
    operations and to the cache merge. *)

From Stdlib Require Import ZArith List String Bool Lia QArith.
From Stdlib Require Import Permutation Sorted.
Import ListNotations.
Open Scope string_scope.
Open Scope list_scope.
Open Scope Z_scope.

(** ** Column values and data frames *)

(** A cell of a data frame; [VNull] is SQL NULL. *)
Inductive value : Type :=
| VNull
| VInt (z : Z)
| VStr (s : string).

Definition value_eqb (a b : value) : bool :=
  match a, b with
  | VNull, VNull => true
  | VInt x, VInt y => Z.eqb x y
  | VStr x, VStr y => String.eqb x y
  | _, _ => false
  end.

Definition is_null (v : value) : bool :=
  match v with VNull => true | _ => false end.

Fixpoint key_eqb (k1 k2 : list value) : bool :=
  match k1, k2 with
  | [], [] => true
  | a :: k1', b :: k2' => value_eqb a b && key_eqb k1' k2'
  | _, _ => false
  end.

(** SQL equality of two key tuples as used by a join or merge condition
    [(source.c = target.c) AND ...]: a NULL on either side never matches. *)
Fixpoint sql_key_match (k1 k2 : list value) : bool :=
  match k1, k2 with
  | [], [] => true
  | a :: k1', b :: k2' =>
      negb (is_null a) && negb (is_null b) && value_eqb a b
      && sql_key_match k1' k2'
  | _, _ => false
  end.

Definition no_nulls (k : list value) : bool := forallb (fun v => negb (is_null v)) k.

Definition mem (c : string) (cs : list string) : bool :=
  existsb (String.eqb c) cs.

Definition subset (xs ys : list string) : bool :=
  forallb (fun x => mem x ys) xs.

(** Python [set(xs) == set(ys)]. *)
Definition set_eq (xs ys : list string) : bool := subset xs ys && subset ys xs.

Record DataFrame : Type := mkDF {
  columns : list string;
  rows : list (list value)
}.

(** The cell of row [r] under column [c]; the first column of that name. *)
Fixpoint get (cols : list string) (c : string) (r : list value) : value :=
  match cols, r with
  | c' :: cols', v :: r' => if String.eqb c c' then v else get cols' c r'
  | _, _ => VNull
  end.

Definition project (cols : list string) (sel : list string) (r : list value)
  : list value :=
  map (fun c => get cols c r) sel.

Definition wf_frame (df : DataFrame) : Prop :=
  NoDup (columns df) /\
  forall r, In r (rows df) -> List.length r = List.length (columns df).

(** ** Exceptions *)

Inductive exn : Type :=
| AssertionError (msg : string)
| AnalysisException (column : string)
| MergeError
| OperationError (code : Z).

Inductive outcome (A : Type) : Type :=
| Ok (a : A)
| Raise (e : exn).
Arguments Ok {A} a.
Arguments Raise {A} e.

(** ** Parameters *)

(** Modelled from the spec: [CachedLoaderParameters] is imported by
    CachedLoader.py but its file is not part of the sources; the fields are
    those CachedLoader.py reads and the configuration surface of the spec
    (section 6) lists. *)
Record CachedLoaderParameters : Type := mkParams {
  cache_table_name : string;
  key_cols : list string;
  cache_id_cols : list string;
  p_rowHash : string;
  p_loadedTime : string;
  p_deletedTime : string;
  max_ttl : Z;
  refresh_ttl : Z;
  refresh_row_limit : Z
}.

(** ** The cache table *)

(** A row of the cache table.  [validate] fixes the table's columns to the
    key columns, the cache id columns and the three bookkeeping columns, so
    a row is a record of exactly those. *)
Record CacheRow : Type := mkCacheRow {
  c_key : list value;
  c_rowHash : option Z;
  c_loadedTime : option Z;      (* timestamp, microseconds since the epoch *)
  c_deletedTime : option Z;
  c_ids : list value
}.

(** A Delta table: its column names, its current rows, and the earlier
    versions (most recent first).  The version number of the current rows
    is the number of earlier versions. *)
Record DeltaTable : Type := mkTable {
  t_columns : list string;
  t_current : list CacheRow;
  t_older : list (list CacheRow)
}.

(** [DESCRIBE HISTORY t LIMIT 1], column [version]. *)
Definition latest_version (t : DeltaTable) : nat := List.length (t_older t).

(** [SELECT * FROM t VERSION AS OF v]. *)
Definition read_version (t : DeltaTable) (v : nat) : option (list CacheRow) :=
  nth_error (rev (t_current t :: t_older t)) v.

(** ** Pluggable operations and loader classes *)

Definition WriteOp : Type := DataFrame -> outcome (option DataFrame).
Definition DeleteOp : Type := list CacheRow -> outcome (option (list CacheRow)).

(** The class of the loader object: [CachedLoader] itself, or a class
    derived from it whose body defines [write_operation], [delete_operation],
    both or neither. *)
Inductive LoaderClass : Type :=
| CachedLoaderBase
| Subclass (own_write : option WriteOp) (own_delete : option DeleteOp).

(** [CachedLoader.write_operation]: returns None. *)
Definition base_write_operation : WriteOp := fun _ => Ok None.

(** [CachedLoader.delete_operation]: returns its argument. *)
Definition base_delete_operation : DeleteOp := fun df => Ok (Some df).

(** ["write_operation" in self.__class__.__dict__]: the body of
    [CachedLoader] defines the method, and so may a subclass. *)
Definition write_overloaded (cls : LoaderClass) : bool :=
  match cls with
  | CachedLoaderBase => true
  | Subclass (Some _) _ => true
  | Subclass None _ => false
  end.

Definition delete_overloaded (cls : LoaderClass) : bool :=
  match cls with
  | CachedLoaderBase => true
  | Subclass _ (Some _) => true
  | Subclass _ None => false
  end.

(** [self.__class__ is CachedLoader]. *)
Definition is_CachedLoader (cls : LoaderClass) : bool :=
  match cls with CachedLoaderBase => true | Subclass _ _ => false end.

(** Method resolution of [self.write_operation] and [self.delete_operation]. *)
Definition write_operation (cls : LoaderClass) : WriteOp :=
  match cls with
  | Subclass (Some w) _ => w
  | _ => base_write_operation
  end.

Definition delete_operation (cls : LoaderClass) : DeleteOp :=
  match cls with
  | Subclass _ (Some d) => d
  | _ => base_delete_operation
  end.

Definition expected_schema (p : CachedLoaderParameters) : list string :=
  key_cols p ++ cache_id_cols p ++ [p_rowHash p; p_loadedTime p; p_deletedTime p].

(** [CachedLoader.validate]. *)
Definition validate (p : CachedLoaderParameters) (cls : LoaderClass)
  (table : DeltaTable) : outcome unit :=
  if negb (set_eq (t_columns table) (expected_schema p)) then
    Raise (AssertionError EmptyString)
  else if negb (write_overloaded cls || delete_overloaded cls) then
    Raise (AssertionError "overload of write_operation or delete_operation required")
  else if is_CachedLoader cls then
    Raise (AssertionError "You should inherit from this class")
  else Ok tt.

(** The loader object after [__init__]. *)
Record CachedLoader : Type := mkLoader {
  params : CachedLoaderParameters;
  cls : LoaderClass;
  n_rows_all_writes : Z;
  n_rows_last_write : Z
}.

(** [CachedLoader.__init__]. *)
Definition init (p : CachedLoaderParameters) (c : LoaderClass)
  (table : DeltaTable) : outcome CachedLoader :=
  match validate p c table with
  | Raise e => Raise e
  | Ok _ => Ok (mkLoader p c 0 0)
  end.

(** ** The reducer *)

(** The join of the hashed incoming frame with the cache, restricted to the
    rows that come from the incoming frame ([joined_df_incoming]): the
    incoming row, [df.rowHash], [cache.loadedTime] and [hashMatch].  The
    columns the code adds to the frame and drops again are fields here;
    incoming frames are taken not to use those column names themselves. *)
Record Joined : Type := mkJoined {
  j_row : list value;
  j_rowHash : Z;
  j_loadedTime : option Z;
  j_hashMatch : option bool
}.

(** A joined row with its [__cachePriority]. *)
Record Prioritised : Type := mkPrioritised {
  pr_joined : Joined;
  cachePriority : Z
}.

Record ReductionResult : Type := mkResult {
  to_be_written : DataFrame;
  to_be_deleted : list CacheRow
}.

(** The columns the star of [f.hash("*")] stands for: all of the frame's. *)
Definition star (cols : list string) : list string := cols.

(** [df.rowHash == cache.rowHash]; NULL when the cache side is NULL. *)
Definition hash_match (h : Z) (cached : option Z) : option bool :=
  match cached with
  | Some h' => Some (Z.eqb h h')
  | None => None
  end.

(** [hashMatch == False] as a [when] condition: NULL counts as not taken. *)
Definition is_false (b : option bool) : bool :=
  match b with Some false => true | _ => false end.

Definition Qgtb (a b : Q) : bool := negb (Qle_bool a b).

(** [now - loadedTime.cast(LongType)]: the cast of a timestamp gives whole
    seconds; [now] is the wall clock in seconds. *)
Definition lived (now : Q) (loaded : Z) : Q :=
  (now - inject_Z (loaded / 1000000))%Q.

Definition cache_priority (p : CachedLoaderParameters) (now : Q) (j : Joined) : Z :=
  match j_loadedTime j with
  | None => 1
  | Some t =>
      if is_false (j_hashMatch j) then 1
      else if (0 <? max_ttl p) && Qgtb (lived now t) (inject_Z (max_ttl p)) then 2
      else if (0 <? refresh_ttl p) && Qgtb (lived now t) (inject_Z (refresh_ttl p)) then 3
      else 1000
  end.

(** Ascending order with NULL first, as Spark sorts. *)
Definition opt_leb (a b : option Z) : bool :=
  match a, b with
  | None, _ => true
  | Some _, None => false
  | Some x, Some y => x <=? y
  end.

(** [Window.orderBy("__cachePriority", "loadedTime")]. *)
Definition window_leb (a b : Prioritised) : bool :=
  (cachePriority a <? cachePriority b)
  || ((cachePriority a =? cachePriority b)
      && opt_leb (j_loadedTime (pr_joined a)) (j_loadedTime (pr_joined b))).

Fixpoint insert_sorted (x : Prioritised) (l : list Prioritised) : list Prioritised :=
  match l with
  | [] => [x]
  | y :: l' => if window_leb x y then x :: l else y :: insert_sorted x l'
  end.

(** The order of the window; rows that tie keep the order they had (Spark
    leaves the order of ties open). *)
Fixpoint window_sort (l : list Prioritised) : list Prioritised :=
  match l with
  | [] => []
  | x :: l' => insert_sorted x (window_sort l')
  end.

(** [f.row_number().over(w)], numbering from [n]. *)
Fixpoint row_number (n : Z) (l : list Prioritised) : list (Prioritised * Z) :=
  match l with
  | [] => []
  | x :: l' => (x, n) :: row_number (n + 1) l'
  end.

Definition within_limit (limit : Z) (xo : Prioritised * Z) : bool :=
  (cachePriority (fst xo) <? 3) || (snd xo <=? limit).

(** The rows of a frame in window order that the filter on the rank keeps. *)
Definition limit_ranked (limit : Z) (ranked : list Prioritised) : list Prioritised :=
  map fst (filter (within_limit limit) (row_number 1 ranked)).

Definition apply_row_limit (limit : Z) (l : list Prioritised) : list Prioritised :=
  limit_ranked limit (window_sort l).

Section Reducer.

(** Spark's [hash] of a list of cells. *)
Variable hash : list value -> Z.

Variable p : CachedLoaderParameters.

Definition incoming_key (cols : list string) (r : list value) : list value :=
  project cols (key_cols p) r.

(** [df_in.filter("(k1 is NOT NULL) AND ...")]. *)
Definition filter_null_keys (df : DataFrame) : list (list value) :=
  filter (fun r => no_nulls (incoming_key (columns df) r)) (rows df).

(** [withColumn("rowHash", f.hash("*"))]. *)
Definition row_hash (cols : list string) (r : list value) : Z :=
  hash (project cols (star cols) r).

(** The rows of the full join that carry an incoming row [r]: one for each
    cache row of the same key, or a single one with the cache side NULL. *)
Definition join_row (cols : list string) (cache : list CacheRow)
  (r : list value) : list Joined :=
  let h := row_hash cols r in
  match filter (fun c => sql_key_match (incoming_key cols r) (c_key c)) cache with
  | [] => [mkJoined r h None None]
  | matches =>
      map (fun c => mkJoined r h (c_loadedTime c) (hash_match h (c_rowHash c)))
          matches
  end.

Definition joined_df_incoming (df : DataFrame) (cache : list CacheRow)
  : list Joined :=
  flat_map (join_row (columns df) cache) (filter_null_keys df).

(** The rows of the full join without an incoming side; of each the key
    columns and [cache.*] are kept, which is the cache row. *)
Definition unmatched_cache (df : DataFrame) (cache : list CacheRow)
  : list CacheRow :=
  filter (fun c =>
            negb (existsb (fun r => sql_key_match (incoming_key (columns df) r)
                                                  (c_key c))
                          (filter_null_keys df)))
         cache.

Definition with_priority (now : Q) (j : Joined) : Prioritised :=
  mkPrioritised j (cache_priority p now j).

(** The joined rows with their priority, less those of priority 100 and
    above: [filtered_df] before the row limit. *)
Definition prioritised (now : Q) (df : DataFrame) (cache : list CacheRow)
  : list Prioritised :=
  filter (fun x => cachePriority x <? 100)
         (map (with_priority now) (joined_df_incoming df cache)).

(** [filtered_df] after the row limit. *)
Definition filtered_df (now : Q) (df : DataFrame) (cache : list CacheRow)
  : list Prioritised :=
  if 0 <? refresh_row_limit p
  then apply_row_limit (refresh_row_limit p) (prioritised now df cache)
  else prioritised now df cache.

(** [CachedLoader._discard_non_new_rows_against_cache].  Once the helper
    columns are dropped the rows to be written are incoming rows as they
    came in; the frame is given the incoming columns in their order. *)
Definition discard_non_new_rows_against_cache (now : Q) (df_in : DataFrame)
  (cache : list CacheRow) : ReductionResult :=
  mkResult
    (mkDF (columns df_in)
          (map (fun x => j_row (pr_joined x)) (filtered_df now df_in cache)))
    (unmatched_cache df_in cache).

End Reducer.

(** ** The world [save] runs in *)

(** A call made by [save] that leaves the loader. *)
Inductive Event : Type :=
| CalledWrite (df : DataFrame)
| CalledDelete (offered : list CacheRow)
| CalledLoadCache (cache_to_load : list CacheRow).

Record World : Type := mkWorld {
  loader : CachedLoader;
  table : DeltaTable;
  trace : list Event            (* most recent call first *)
}.

(** Computations that read and change the world and may raise; what was
    changed before an exception stays changed. *)
Definition M (A : Type) : Type := World -> outcome A * World.

Definition ret {A} (a : A) : M A := fun w => (Ok a, w).
Definition raise {A} (e : exn) : M A := fun w => (Raise e, w).
Definition bind {A B} (m : M A) (k : A -> M B) : M B :=
  fun w => match m w with
           | (Ok a, w') => k a w'
           | (Raise e, w') => (Raise e, w')
           end.
Definition lift {A} (o : outcome A) : M A := fun w => (o, w).
Definition log (e : Event) : M unit :=
  fun w => (Ok tt, mkWorld (loader w) (table w) (e :: trace w)).

Notation "x <- m ;; k" := (bind m (fun x => k))
  (at level 61, m at next level, right associativity).
Notation "m ;;; k" := (bind m (fun _ => k))
  (at level 61, right associativity).

(** The time stamps one call of [save] sees: [datetime.now] in the reducer
    and [current_timestamp()] in the two cache updates. *)
Record Clock : Type := mkClock {
  now : Q;
  written_at : Z;
  deleted_at : Z
}.

(** ** Cache extraction and update *)

Definition active (c : CacheRow) : bool :=
  match c_deletedTime c, c_rowHash c, c_loadedTime c with
  | None, Some _, Some _ => true
  | _, _, _ => false
  end.

(** [CachedLoader._extract_cache]: the rows of the latest version that are
    not deleted and have a hash and a load time. *)
Definition extract_cache : M (list CacheRow) :=
  fun w =>
    let version := latest_version (table w) in
    match read_version (table w) version with
    | Some snapshot => (Ok (filter active snapshot), w)
    | None => (Raise MergeError, w)
    end.

(** The first of the columns [sel] the frame does not have, if any. *)
Definition missing (cols sel : list string) : option string :=
  find (fun c => negb (mem c cols)) sel.

(** [CachedLoader._prepare_deleted_cache_update]. *)
Definition prepare_deleted_cache_update (ts : Z) (df : list CacheRow)
  : list CacheRow :=
  map (fun c => mkCacheRow (c_key c) (c_rowHash c) (c_loadedTime c) (Some ts) (c_ids c))
      df.

(** The source rows a target row matches in the merge condition. *)
Definition source_matches (source : list CacheRow) (t : CacheRow) : list CacheRow :=
  filter (fun s => sql_key_match (c_key s) (c_key t)) source.

(** [WHEN MATCHED THEN UPDATE SET * WHEN NOT MATCHED THEN INSERT *]. *)
Definition merge_rows (target source : list CacheRow) : list CacheRow :=
  map (fun t => match source_matches source t with
                | s :: _ => s
                | [] => t
                end) target
  ++ filter (fun s => negb (existsb (fun t => sql_key_match (c_key s) (c_key t)) target))
            source.

(** Delta refuses a merge in which several source rows match one target
    row. *)
Definition ambiguous (target source : list CacheRow) : bool :=
  existsb (fun t => (1 <? List.length (source_matches source t))%nat) target.

Definition commit (t : DeltaTable) (new_rows : list CacheRow) : DeltaTable :=
  mkTable (t_columns t) new_rows (t_current t :: t_older t).

(** [CachedLoader._load_cache]; the temporary view only carries the rows to
    the merge statement. *)
Definition load_cache (cache_to_load : list CacheRow) : M unit :=
  log (CalledLoadCache cache_to_load) ;;;
  fun w =>
    if ambiguous (t_current (table w)) cache_to_load
    then (Raise MergeError, w)
    else (Ok tt,
          mkWorld (loader w)
                  (commit (table w) (merge_rows (t_current (table w)) cache_to_load))
                  (trace w)).

(** [df.dropDuplicates(key_cols)], keeping of each key the first row;
    NULLs group together. *)
Fixpoint drop_duplicate_rows (cols ks : list string) (l : list (list value))
  : list (list value) :=
  match l with
  | [] => []
  | r :: l' =>
      r :: filter (fun r' => negb (key_eqb (project cols ks r) (project cols ks r')))
                  (drop_duplicate_rows cols ks l')
  end.

Definition dropDuplicates (ks : list string) (df : DataFrame) : DataFrame :=
  mkDF (columns df) (drop_duplicate_rows (columns df) ks (rows df)).

(** Truth value of what a pluggable operation returned, as [if df_written:]
    takes it: None is false, and a DataFrame, which defines neither
    [__bool__] nor [__len__], is true whatever its rows. *)
Definition truthy {A} (returned : option A) : bool :=
  match returned with Some _ => true | None => false end.

(** [if returned: body(returned)]. *)
Definition if_truthy {A} (returned : option A) (body : A -> M unit) : M unit :=
  if truthy returned
  then match returned with Some a => body a | None => ret tt end
  else ret tt.

Definition count (df : DataFrame) : Z := Z.of_nat (List.length (rows df)).

Section Save.

Variable hash : list value -> Z.

(** [CachedLoader._prepare_written_cache_update]; selecting a column the
    frame lacks raises. *)
Definition prepare_written_cache_update (p : CachedLoaderParameters) (ts : Z)
  (df : DataFrame) (columns_to_hash : list string) : outcome (list CacheRow) :=
  match missing (columns df) (key_cols p ++ columns_to_hash ++ cache_id_cols p) with
  | Some c => Raise (AnalysisException c)
  | None =>
      Ok (map (fun r =>
                 mkCacheRow (project (columns df) (key_cols p) r)
                            (Some (hash (project (columns df) columns_to_hash r)))
                            (Some ts)
                            None
                            (project (columns df) (cache_id_cols p) r))
              (rows df))
  end.

Definition call_write (df : DataFrame) : M (option DataFrame) :=
  log (CalledWrite df) ;;;
  fun w => (write_operation (cls (loader w)) df, w).

Definition call_delete (df : list CacheRow) : M (option (list CacheRow)) :=
  log (CalledDelete df) ;;;
  fun w => (delete_operation (cls (loader w)) df, w).

Definition record_write (n : Z) : M unit :=
  fun w =>
    let l := loader w in
    (Ok tt,
     mkWorld (mkLoader (params l) (cls l) (n_rows_all_writes l + n) n)
             (table w) (trace w)).

(** The write branch of [save]. *)
Definition write_branch (p : CachedLoaderParameters) (clock : Clock)
  (in_cols : list string) (result : ReductionResult) : M unit :=
  df_written <- call_write (to_be_written result) ;;
  if_truthy df_written (fun written =>
    record_write (count written) ;;;
    df_written_cache_update <-
      lift (prepare_written_cache_update p (written_at clock) written in_cols) ;;
    load_cache df_written_cache_update).

(** The delete branch of [save]. *)
Definition delete_branch (clock : Clock) (result : ReductionResult) : M unit :=
  df_deleted <- call_delete (to_be_deleted result) ;;
  if_truthy df_deleted (fun deleted =>
    load_cache (prepare_deleted_cache_update (deleted_at clock) deleted)).

(** [CachedLoader.save]. *)
Definition save (clock : Clock) (df : DataFrame) : M unit :=
  fun w0 =>
    let p := params (loader w0) in
    let in_cols := columns df in
    (if negb (subset (key_cols p) in_cols) then
       raise (AssertionError "The key columns must be given in the input dataframe.")
     else
       let df := dropDuplicates (key_cols p) df in
       cache <- extract_cache ;;
       let result := discard_non_new_rows_against_cache hash p (now clock) df cache in
       write_branch p clock in_cols result ;;;
       delete_branch clock result) w0.

(** The reduction [save] computes in world [w]: of the deduplicated batch
    against the active rows of the current cache table. *)
Definition reduction (clock : Clock) (df : DataFrame) (w : World) : ReductionResult :=
  discard_non_new_rows_against_cache hash (params (loader w)) (now clock)
    (dropDuplicates (key_cols (params (loader w))) df)
    (filter active (t_current (table w))).

End Save.

(** ** Notions the properties below are stated with *)

(** The columns of a frame that are not key columns. *)
Definition non_key_columns (p : CachedLoaderParameters) (cols : list string)
  : list string :=
  filter (fun c => negb (mem c (key_cols p))) cols.

(** How many rows of a list carry priority [n]. *)
Definition count_priority (n : Z) (l : list Prioritised) : Z :=
  Z.of_nat (List.length (filter (fun x => cachePriority x =? n) l)).

Definition loaded_leb (a b : Prioritised) : bool :=
  opt_leb (j_loadedTime (pr_joined a)) (j_loadedTime (pr_joined b)).

(** The order of the window as a relation. *)
Definition window_le (a b : Prioritised) : Prop := window_leb a b = true.

(** Ascending load time, NULL first. *)
Definition loaded_le (a b : Prioritised) : Prop := loaded_leb a b = true.

(** Rows of priority 1 and 2, which the row limit never drops. *)
Definition low (x : Prioritised) : bool := cachePriority x <? 3.
Definition high (x : Prioritised) : bool := negb (low x).

(** Rows of priority 3, the candidates for a soft refresh. *)
Definition soft_refresh (x : Prioritised) : bool := cachePriority x =? 3.

(** The priorities that pass the filter [__cachePriority < 100]. *)
Definition listed (x : Prioritised) : Prop :=
  cachePriority x = 1 \/ cachePriority x = 2 \/ cachePriority x = 3.


(** The keys a list of cache rows is about. *)
Definition keys_of (rows : list CacheRow) : list (list value) := map c_key rows.

(** The offers made to the delete operation that a trace records. *)
Fixpoint delete_offers (tr : list Event) : list (list CacheRow) :=
  match tr with
  | [] => []
  | CalledDelete offered :: tr' => offered :: delete_offers tr'
  | _ :: tr' => delete_offers tr'
  end.

(** The frames offered to the write operation that a trace records. *)
Fixpoint write_offers (tr : list Event) : list DataFrame :=
  match tr with
  | [] => []
  | CalledWrite df :: tr' => df :: write_offers tr'
  | _ :: tr' => write_offers tr'
  end.

(** The world once the call of the write operation is on the trace. *)
Definition write_called (offered : DataFrame) (w : World) : World :=
  mkWorld (loader w) (table w) (CalledWrite offered :: trace w).

(** The world once the counts of a write are recorded. *)
Definition write_recorded (n : Z) (w : World) : World :=
  mkWorld (mkLoader (params (loader w)) (cls (loader w))
                    (n_rows_all_writes (loader w) + n) n)
          (table w) (trace w).


(** The world after a sequence of calls of [save], each with its clock and
    batch; a call that raises leaves the world it reached. *)
Definition run_saves (hash : list value -> Z) (calls : list (Clock * DataFrame))
  (w : World) : World :=
  fold_left (fun w call => snd (save hash (fst call) (snd call) w)) calls w.

(** The active rows of the table for key [k] exist and all carry hash [h]. *)
Definition cached_as (table_rows : list CacheRow) (k : list value) (h : Z) : Prop :=
  (exists c, In c table_rows /\ active c = true /\ sql_key_match k (c_key c) = true)
  /\ forall c, In c table_rows -> active c = true ->
                sql_key_match k (c_key c) = true -> c_rowHash c = Some h.

(** The frame a write operation returned holds, under the columns of the
    frame it was offered, exactly the offered rows. *)
Definition reports_all_offered (offered written : DataFrame) : Prop :=
  map (project (columns written) (columns offered)) (rows written) = rows offered.

(** A delete operation that reports as deleted only keys it was offered. *)
Definition reports_only_offered (op : DeleteOp) : Prop :=
  forall offered deleted,
    op offered = Ok (Some deleted) -> incl (keys_of deleted) (keys_of offered).

(** The cache rows [_prepare_written_cache_update] makes of written rows. *)
Definition written_cache_rows (hash : list value -> Z) (p : CachedLoaderParameters)
  (ts : Z) (written : DataFrame) (in_cols : list string) : list CacheRow :=
  map (fun r => mkCacheRow (project (columns written) (key_cols p) r)
                           (Some (hash (project (columns written) in_cols r)))
                           (Some ts) None
                           (project (columns written) (cache_id_cols p) r))
      (rows written).

(** ** Example loaders, tables and batches *)

Module Fixture.

(** A stand-in for Spark's hash that tells apart the cells used below. *)
Definition demo_hash (cells : list value) : Z :=
  fold_left (fun acc v =>
               match v with
               | VNull => acc * 31
               | VInt z => acc * 31 + z + 1
               | VStr s => acc * 31 + Z.of_nat (String.length s) + 7
               end) cells 17.

Definition schema : list string := ["id"; "rowHash"; "loadedTime"; "deletedTime"].

Definition params_with (max_ttl refresh_ttl limit : Z) : CachedLoaderParameters :=
  mkParams "cache" ["id"] [] "rowHash" "loadedTime" "deletedTime"
           max_ttl refresh_ttl limit.

(** No ttl and no row limit: pure change detection. *)
Definition params0 : CachedLoaderParameters := params_with 0 0 0.

Definition empty_table : DeltaTable := mkTable schema [] [].

(** A write operation that reports every offered row as written. *)
Definition write_all : WriteOp := fun df => Ok (Some df).

(** A write operation that writes nothing and reports an empty frame. *)
Definition write_none_empty : WriteOp := fun df => Ok (Some (mkDF (columns df) [])).

(** A write operation that fails. *)
Definition write_fails : WriteOp := fun _ => Raise (OperationError 1).

Definition delete_nothing : DeleteOp := fun _ => Ok None.

Definition writer : LoaderClass := Subclass (Some write_all) None.
Definition writer_and_deleter : LoaderClass :=
  Subclass (Some write_all) (Some base_delete_operation).

Definition batch : DataFrame :=
  mkDF ["id"; "val"] [[VInt 1; VStr "a"]; [VInt 2; VStr "bb"]].

Definition world_of (p : CachedLoaderParameters) (c : LoaderClass)
  (rows : list CacheRow) : World :=
  mkWorld (mkLoader p c 0 0) (mkTable schema rows []) [].

Definition clock0 : Clock := mkClock (2000 # 1) 2000000000 2000000001.
Definition clock1 : Clock := mkClock (3000 # 1) 3000000000 3000000001.

End Fixture.

(** ** Notions for the cache table and the calls of [save] *)

(** No two rows of the table have the same key. *)
Definition unique_keys (table_rows : list CacheRow) : Prop :=
  NoDup (keys_of table_rows).

(** No key of the table holds a NULL. *)
Definition keys_not_null (table_rows : list CacheRow) : Prop :=
  forall c, In c table_rows -> no_nulls (c_key c) = true.

(** The source rows of a merge that match no target row: those inserted. *)
Definition inserted_rows (target source : list CacheRow) : list CacheRow :=
  filter (fun s => negb (existsb (fun t => sql_key_match (c_key s) (c_key t)) target))
         source.

(** The calls of [_load_cache] that a trace records. *)
Fixpoint load_cache_calls (tr : list Event) : list (list CacheRow) :=
  match tr with
  | [] => []
  | CalledLoadCache update :: tr' => update :: load_cache_calls tr'
  | _ :: tr' => load_cache_calls tr'
  end.


(** The world once the call of the delete operation is on the trace. *)
Definition delete_called (offered : list CacheRow) (w : World) : World :=
  mkWorld (loader w) (table w) (CalledDelete offered :: trace w).

(** The two counters of a loader are in order. *)
Definition counters_ordered (l : CachedLoader) : Prop :=
  0 <= n_rows_last_write l <= n_rows_all_writes l.

(** From world [w] to world [w'] every call of [_load_cache] committed a
    version of the cache table. *)
Definition every_load_committed (w w' : World) : Prop :=
  (latest_version (table w') + List.length (load_cache_calls (trace w))
   = latest_version (table w) + List.length (load_cache_calls (trace w')))%nat.

(** A write operation that, when it returns a frame for a well-formed
    frame, returns the rows it was offered. *)
Definition writes_all_offered (op : WriteOp) : Prop :=
  forall offered written,
    wf_frame offered ->
    op offered = Ok (Some written) -> reports_all_offered offered written.

(** A delete operation that, when it returns rows, returns rows it was
    offered, and none of them twice if it was offered none twice. *)
Definition deletes_offered_once (op : DeleteOp) : Prop :=
  forall offered deleted,
    op offered = Ok (Some deleted) ->
    incl deleted offered /\ (unique_keys offered -> unique_keys deleted).

(** ** CosmosHandle

    [src/atc/cosmos/cosmos_handle.py].  The server behind the handle,
    [CosmosBaseServer], is not part of the sources; its four methods are
    taken as given, over a state of the server that they may change and
    with the exception they may raise. *)

Module Cosmos.

Inductive error : Type :=
| TypeError (msg : string)
| NotImplementedError
| ServerError (code : Z).

Inductive result (A : Type) : Type :=
| Returned (a : A)
| Raised (e : error).
Arguments Returned {A} a.
Arguments Raised {A} e.

Section Handle.

Variable Server : Type.
Variable read_table_by_name : string -> Server -> result DataFrame * Server.
Variable recreate_container_by_name : string -> Server -> result unit * Server.
Variable write_table_by_name :
  DataFrame -> string -> option Z -> Server -> result unit * Server.
Variable delete_container_by_name : string -> Server -> result unit * Server.

Record CosmosHandle : Type := mkHandle {
  _name : string;
  _rows_per_partition : option Z
}.

Definition Run (A : Type) : Type := Server -> result A * Server.

Definition then_ {A B} (m : Run A) (k : A -> Run B) : Run B :=
  fun s => match m s with
           | (Returned a, s') => k a s'
           | (Raised e, s') => (Raised e, s')
           end.

(** [CosmosHandle.read]. *)
Definition read (self : CosmosHandle) : Run DataFrame :=
  read_table_by_name (_name self).

(** [CosmosHandle.recreate]. *)
Definition recreate (self : CosmosHandle) : Run unit :=
  recreate_container_by_name (_name self).

(** [CosmosHandle.append]. *)
Definition append (self : CosmosHandle) (df : DataFrame) : Run unit :=
  write_table_by_name df (_name self) (_rows_per_partition self).

(** [CosmosHandle.overwrite], called with the positional arguments [args]
    after [self]: the method takes exactly one, [df]. *)
Definition overwrite (self : CosmosHandle) (args : list DataFrame) : Run unit :=
  match args with
  | [df] => then_ (recreate self) (fun _ => append self df)
  | _ => fun s => (Raised (TypeError "overwrite() missing or surplus argument"), s)
  end.

(** [CosmosHandle.truncate]. *)
Definition truncate (self : CosmosHandle) : Run unit := recreate self.

(** [CosmosHandle.drop]. *)
Definition drop (self : CosmosHandle) : Run unit :=
  delete_container_by_name (_name self).

(** [CosmosHandle.drop_and_delete]. *)
Definition drop_and_delete (self : CosmosHandle) : Run unit := drop self.

(** [CosmosHandle.write_or_append]: the other branch calls
    [self.overwrite()] without the frame. *)
Definition write_or_append (self : CosmosHandle) (df : DataFrame) (mode : string)
  : Run unit :=
  if String.eqb mode "append" then append self df else overwrite self [].

(** [CosmosHandle.upsert]. *)
Definition upsert (self : CosmosHandle) (df : DataFrame) (join_cols : list string)
  : Run (option DataFrame) :=
  fun s => (Raised NotImplementedError, s).

(** [CosmosHandle.get_tablename]. *)
Definition get_tablename (self : CosmosHandle) : string := _name self.

End Handle.

End Cosmos.

(** * Properties *)

(** ** Construction *)

Lemma validate_ok_iff p c t :
  validate p c t = Ok tt <->
  set_eq (t_columns t) (expected_schema p) = true /\
  (write_overloaded c || delete_overloaded c) = true /\
  is_CachedLoader c = false.
Proof.
  unfold validate.
  destruct (set_eq (t_columns t) (expected_schema p)); simpl.
  - destruct (write_overloaded c || delete_overloaded c); simpl.
    + destruct (is_CachedLoader c); split; intros H;
        try discriminate; try tauto.
      destruct H as (_ & _ & H); discriminate.
    + split; intros H; try discriminate.
      destruct H as (_ & H & _); discriminate.
  - split; intros H; try discriminate.
    destruct H as (H & _); discriminate.
Qed.

Lemma validate_raises_assertion p c t :
  validate p c t = Ok tt \/ exists msg, validate p c t = Raise (AssertionError msg).
Proof.
  unfold validate.
  destruct (negb _); [right; eauto|].
  destruct (negb _); [right; eauto|].
  destruct (is_CachedLoader c); [right; eauto | left; reflexivity].
Qed.

(** C4, as stated, fails: a class that overrides both [write_operation] and
    [delete_operation] is constructed without error, although not exactly
    one of the two is overridden. *)
Lemma C4_both_overridden_is_accepted :
  init Fixture.params0 Fixture.writer_and_deleter Fixture.empty_table
  = Ok (mkLoader Fixture.params0 Fixture.writer_and_deleter 0 0)
  /\ write_overloaded Fixture.writer_and_deleter = true
  /\ delete_overloaded Fixture.writer_and_deleter = true.
Proof. repeat split. Qed.

(** C4, amended: construction succeeds exactly when the cache table has the
    expected columns and the class is a subclass whose body defines at least
    one of [write_operation] and [delete_operation] (possibly both); it then
    yields the loader with both counters zero.  In every other case, the
    base class included, construction raises an AssertionError. *)
Theorem C4_construction_succeeds_iff p c t :
  (init p c t = Ok (mkLoader p c 0 0) <->
   set_eq (t_columns t) (expected_schema p) = true /\
   exists w d, c = Subclass w d /\ (w <> None \/ d <> None))
  /\ (init p c t = Ok (mkLoader p c 0 0)
      \/ exists msg, init p c t = Raise (AssertionError msg)).
Proof.
  split.
  - unfold init. split.
    + destruct (validate p c t) as [[]|e] eqn:E; [|discriminate].
      intros _. apply validate_ok_iff in E. destruct E as (Hs & Ho & Hb).
      split; [exact Hs|].
      destruct c as [|w d]; [discriminate|].
      exists w, d. split; [reflexivity|].
      destruct w; [left; discriminate|].
      destruct d; [right; discriminate|]. discriminate.
    + intros (Hs & w & d & -> & Hwd).
      assert (E : validate p (Subclass w d) t = Ok tt).
      { apply validate_ok_iff. repeat split; try assumption.
        destruct w; [reflexivity|]. destruct d; [reflexivity|].
        destruct Hwd as [H|H]; contradiction H; reflexivity. }
      rewrite E. reflexivity.
  - unfold init. destruct (validate_raises_assertion p c t) as [E|[msg E]]; rewrite E.
    + left; reflexivity.
    + right; eauto.
Qed.

(** ** Frames and keys *)

Lemma mem_In c cs : mem c cs = true <-> In c cs.
Proof.
  unfold mem. rewrite existsb_exists. split.
  - intros (x & Hx & E). apply String.eqb_eq in E. subst. exact Hx.
  - intros H. exists c. split; [exact H | apply String.eqb_refl].
Qed.

Lemma get_skip c c' cols v r :
  c <> c' -> get (c' :: cols) c (v :: r) = get cols c r.
Proof.
  intros Hne. simpl. destruct (String.eqb c c') eqn:E; [|reflexivity].
  apply String.eqb_eq in E. contradiction.
Qed.

Lemma project_self cols : forall r,
  NoDup cols -> List.length r = List.length cols -> project cols cols r = r.
Proof.
  induction cols as [|c cols IH]; intros r Hnd Hlen.
  - destruct r; [reflexivity | discriminate].
  - destruct r as [|v r]; [discriminate|].
    inversion Hnd as [|? ? Hnotin Hnd']; subst.
    unfold project. simpl. rewrite String.eqb_refl. f_equal.
    transitivity (project cols cols r).
    + unfold project. apply map_ext_in. intros c' Hin.
      destruct (String.eqb c' c) eqn:E; [|reflexivity].
      apply String.eqb_eq in E. subst. contradiction.
    + apply IH; [exact Hnd' | simpl in Hlen; lia].
Qed.

Lemma value_eqb_refl v : value_eqb v v = true.
Proof. destruct v; simpl; auto using Z.eqb_refl, String.eqb_refl. Qed.

Lemma value_eqb_eq a b : value_eqb a b = true <-> a = b.
Proof.
  destruct a, b; simpl; split; intros H; try discriminate; try reflexivity.
  - apply Z.eqb_eq in H. congruence.
  - injection H as ->. apply Z.eqb_refl.
  - apply String.eqb_eq in H. congruence.
  - injection H as ->. apply String.eqb_refl.
Qed.

Lemma key_eqb_eq k1 : forall k2, key_eqb k1 k2 = true <-> k1 = k2.
Proof.
  induction k1 as [|a k1 IH]; intros [|b k2]; simpl; split; intros H;
    try discriminate; try reflexivity.
  - apply andb_true_iff in H. destruct H as (Hv & Hk).
    apply value_eqb_eq in Hv. apply IH in Hk. congruence.
  - injection H as -> ->. rewrite value_eqb_refl. simpl. apply IH. reflexivity.
Qed.

Lemma sql_key_match_refl k : no_nulls k = true -> sql_key_match k k = true.
Proof.
  induction k as [|v k IH]; simpl; intros H; [reflexivity|].
  apply andb_true_iff in H. destruct H as (Hv & Hk).
  rewrite Hv, value_eqb_refl, IH by exact Hk. reflexivity.
Qed.

Lemma sql_key_match_eq k1 : forall k2, sql_key_match k1 k2 = true -> k1 = k2.
Proof.
  induction k1 as [|a k1 IH]; intros [|b k2]; simpl; intros H;
    try discriminate; try reflexivity.
  apply andb_true_iff in H. destruct H as (H & Hk).
  apply andb_true_iff in H. destruct H as (_ & Hv).
  apply value_eqb_eq in Hv. apply IH in Hk. congruence.
Qed.

Lemma sql_key_match_no_nulls k1 : forall k2,
  sql_key_match k1 k2 = true -> no_nulls k1 = true.
Proof.
  induction k1 as [|a k1 IH]; intros [|b k2]; simpl; intros H;
    try discriminate; try reflexivity.
  apply andb_true_iff in H. destruct H as (H & Hk).
  apply andb_true_iff in H. destruct H as (H & _).
  apply andb_true_iff in H. destruct H as (Ha & _).
  rewrite Ha. simpl. eapply IH. exact Hk.
Qed.

(** ** The window and the row limit *)

Lemma insert_sorted_perm x l : Permutation (x :: l) (insert_sorted x l).
Proof.
  induction l as [|y l IH]; simpl; [reflexivity|].
  destruct (window_leb x y); [reflexivity|].
  rewrite perm_swap. apply perm_skip. exact IH.
Qed.

Lemma window_sort_perm l : Permutation l (window_sort l).
Proof.
  induction l as [|x l IH]; simpl; [constructor|].
  rewrite <- insert_sorted_perm. apply perm_skip. exact IH.
Qed.

Lemma row_number_In x : forall l n,
  In x l -> exists k, In (x, k) (row_number n l).
Proof.
  induction l as [|y l IH]; intros n Hin; [contradiction|].
  destruct Hin as [E|Hin].
  - subst. exists n. left. reflexivity.
  - destruct (IH (n + 1) Hin) as (k & Hk). exists k. right. exact Hk.
Qed.

Lemma row_number_fst l : forall n, map fst (row_number n l) = l.
Proof. induction l as [|x l IH]; intros n; simpl; [|rewrite IH]; reflexivity. Qed.

Lemma apply_row_limit_keeps_low limit l x :
  In x l -> cachePriority x < 3 -> In x (apply_row_limit limit l).
Proof.
  intros Hin Hlow. unfold apply_row_limit, limit_ranked.
  apply (Permutation_in _ (window_sort_perm l)) in Hin.
  destruct (row_number_In x _ 1 Hin) as (k & Hk).
  apply in_map_iff. exists (x, k). split; [reflexivity|].
  apply filter_In. split; [exact Hk|].
  unfold within_limit. simpl. apply orb_true_iff. left. apply Z.ltb_lt. exact Hlow.
Qed.

Lemma apply_row_limit_incl limit l x :
  In x (apply_row_limit limit l) -> In x l.
Proof.
  unfold apply_row_limit, limit_ranked. intros Hin.
  apply in_map_iff in Hin. destruct Hin as ((y & k) & E & Hin). simpl in E. subst.
  apply filter_In in Hin. destruct Hin as (Hin & _).
  apply (Permutation_in _ (Permutation_sym (window_sort_perm l))).
  rewrite <- (row_number_fst (window_sort l) 1).
  apply in_map_iff. exists (x, k). split; [reflexivity | exact Hin].
Qed.

(** ** What the hash covers *)

(** C1, as stated, fails: the hash taken in the reducer runs over the key
    column as well, so on the example row it is not the hash of the non-key
    cells, and two rows that agree on every non-key column hash differently;
    the hash stored after the write runs over the same columns. *)
Lemma C1_hash_includes_key_columns :
  let p := Fixture.params0 in
  let cols := columns Fixture.batch in
  In "id" (key_cols p) /\ In "id" (star cols)
  /\ row_hash Fixture.demo_hash cols [VInt 1; VStr "a"]
     <> Fixture.demo_hash (project cols (non_key_columns p cols) [VInt 1; VStr "a"])
  /\ row_hash Fixture.demo_hash cols [VInt 1; VStr "a"]
     <> row_hash Fixture.demo_hash cols [VInt 2; VStr "a"]
  /\ (exists update,
        prepare_written_cache_update Fixture.demo_hash p 0
          (mkDF cols [[VInt 1; VStr "a"]]) cols = Ok update
        /\ map c_rowHash update
           <> [Some (Fixture.demo_hash
                       (project cols (non_key_columns p cols) [VInt 1; VStr "a"]))]).
Proof.
  cbv zeta. split; [left; reflexivity|]. split; [left; reflexivity|].
  split; [vm_compute; discriminate|]. split; [vm_compute; discriminate|].
  eexists. split; [reflexivity|]. vm_compute. discriminate.
Qed.

Lemma prepare_written_rows hash p ts written in_cols update :
  prepare_written_cache_update hash p ts written in_cols = Ok update ->
  update =
  map (fun r => mkCacheRow (project (columns written) (key_cols p) r)
                           (Some (hash (project (columns written) in_cols r)))
                           (Some ts) None
                           (project (columns written) (cache_id_cols p) r))
      (rows written).
Proof.
  unfold prepare_written_cache_update.
  destruct (missing _ _); intros H; [discriminate|]. injection H as <-. reflexivity.
Qed.

(** C1, amended: the hash the reducer compares and the hash stored after a
    write are both taken over all columns of the incoming frame, the key
    columns included.  For a row of a well-formed frame the reducer hashes
    the whole row; the cache update hashes, of each written row, the cells
    under the incoming columns; and for a written frame that is the incoming
    one the stored hash is the hash the reducer took. *)
Theorem C1_hash_covers_every_column hash p ts df r :
  wf_frame df -> In r (rows df) ->
  row_hash hash (columns df) r = hash r
  /\ (forall written update,
        prepare_written_cache_update hash p ts written (columns df) = Ok update ->
        map c_rowHash update
        = map (fun r' => Some (hash (project (columns written) (star (columns df)) r')))
              (rows written))
  /\ (forall update,
        prepare_written_cache_update hash p ts df (columns df) = Ok update ->
        In (mkCacheRow (incoming_key p (columns df) r)
                       (Some (row_hash hash (columns df) r))
                       (Some ts) None
                       (project (columns df) (cache_id_cols p) r))
           update).
Proof.
  intros (Hnd & Hlen) Hin.
  assert (Hself : row_hash hash (columns df) r = hash r).
  { unfold row_hash, star. rewrite project_self; auto. }
  split; [exact Hself|]. split.
  - intros written update H. apply prepare_written_rows in H. subst update.
    rewrite map_map. reflexivity.
  - intros update H. apply prepare_written_rows in H. subst update.
    apply in_map_iff. exists r. split; [|exact Hin].
    unfold incoming_key, row_hash, star. reflexivity.
Qed.

Lemma C1_hash_covers_every_column_witness :
  row_hash Fixture.demo_hash (columns Fixture.batch) [VInt 1; VStr "a"]
  = Fixture.demo_hash [VInt 1; VStr "a"].
Proof.
  apply (C1_hash_covers_every_column Fixture.demo_hash Fixture.params0 0
           Fixture.batch [VInt 1; VStr "a"]).
  - split.
    + repeat constructor; simpl; intuition discriminate.
    + intros r [<-|[<-|[]]]; reflexivity.
  - left. reflexivity.
Defined.

(** ** New keys, changed rows and unmatched cache rows *)

Section ReducerFacts.

Variable hash : list value -> Z.
Variable p : CachedLoaderParameters.
Variable now : Q.
Variable df : DataFrame.
Variable cache : list CacheRow.

Lemma filter_null_keys_In r :
  In r (filter_null_keys p df) <->
  In r (rows df) /\ no_nulls (incoming_key p (columns df) r) = true.
Proof. unfold filter_null_keys. rewrite filter_In. reflexivity. Qed.

Lemma join_row_row r j :
  In j (join_row hash p (columns df) cache r) -> j_row j = r.
Proof.
  unfold join_row.
  destruct (filter _ cache) as [|c ms].
  - intros [<-|[]]. reflexivity.
  - intros H. apply in_map_iff in H. destruct H as (c' & <- & _). reflexivity.
Qed.

Lemma join_row_unmatched r :
  (forall c, In c cache ->
             sql_key_match (incoming_key p (columns df) r) (c_key c) = false) ->
  join_row hash p (columns df) cache r
  = [mkJoined r (row_hash hash (columns df) r) None None].
Proof.
  intros H. unfold join_row.
  destruct (filter _ cache) as [|c ms] eqn:E; [reflexivity|].
  assert (Hc : In c (c :: ms)) by (left; reflexivity).
  rewrite <- E in Hc. apply filter_In in Hc. destruct Hc as (Hc & Hm).
  rewrite (H c Hc) in Hm. discriminate.
Qed.

Lemma join_row_matched r c :
  In c cache ->
  sql_key_match (incoming_key p (columns df) r) (c_key c) = true ->
  In (mkJoined r (row_hash hash (columns df) r) (c_loadedTime c)
               (hash_match (row_hash hash (columns df) r) (c_rowHash c)))
     (join_row hash p (columns df) cache r).
Proof.
  intros Hc Hm. unfold join_row.
  assert (Hf : In c (filter (fun c => sql_key_match (incoming_key p (columns df) r)
                                                    (c_key c)) cache)).
  { apply filter_In. split; assumption. }
  destruct (filter _ cache) as [|c0 ms]; [contradiction|].
  apply in_map_iff. exists c. split; [reflexivity | exact Hf].
Qed.

Lemma filtered_df_keeps_low x :
  In x (prioritised hash p now df cache) -> cachePriority x < 3 ->
  In x (filtered_df hash p now df cache).
Proof.
  intros Hin Hlow. unfold filtered_df.
  destruct (0 <? refresh_row_limit p); [|exact Hin].
  apply apply_row_limit_keeps_low; assumption.
Qed.

Lemma filtered_df_incl x :
  In x (filtered_df hash p now df cache) -> In x (prioritised hash p now df cache).
Proof.
  unfold filtered_df. destruct (0 <? refresh_row_limit p); [|auto].
  apply apply_row_limit_incl.
Qed.

Lemma prioritised_In x :
  In x (prioritised hash p now df cache) <->
  exists r, In r (filter_null_keys p df)
            /\ In (pr_joined x) (join_row hash p (columns df) cache r)
            /\ cachePriority x = cache_priority p now (pr_joined x)
            /\ cachePriority x < 100.
Proof.
  unfold prioritised, joined_df_incoming. rewrite filter_In, in_map_iff. split.
  - intros ((j & <- & Hj) & Hlt). apply in_flat_map in Hj.
    destruct Hj as (r & Hr & Hj). exists r. simpl.
    repeat split; try assumption. apply Z.ltb_lt. exact Hlt.
  - intros (r & Hr & Hj & Hp & Hlt). split.
    + exists (pr_joined x). split.
      * unfold with_priority. rewrite <- Hp. destruct x; reflexivity.
      * apply in_flat_map. exists r. split; assumption.
    + apply Z.ltb_lt. exact Hlt.
Qed.

Lemma written_row_is_incoming w :
  In w (rows (to_be_written (discard_non_new_rows_against_cache hash p now df cache))) ->
  In w (filter_null_keys p df).
Proof.
  simpl. intros H. apply in_map_iff in H. destruct H as (x & <- & Hx).
  apply filtered_df_incl, prioritised_In in Hx.
  destruct Hx as (r & Hr & Hj & _). apply join_row_row in Hj. rewrite Hj. exact Hr.
Qed.

Lemma priority_one_is_written j :
  In j (joined_df_incoming hash p df cache) ->
  cache_priority p now j = 1 ->
  In (j_row j)
     (rows (to_be_written (discard_non_new_rows_against_cache hash p now df cache))).
Proof.
  intros Hj Hp. simpl. apply in_map_iff.
  exists (with_priority p now j). split; [reflexivity|].
  apply filtered_df_keeps_low.
  - unfold prioritised. apply filter_In. split.
    + apply in_map. exact Hj.
    + simpl. rewrite Hp. reflexivity.
  - simpl. rewrite Hp. lia.
Qed.

Lemma new_row_is_written r :
  In r (filter_null_keys p df) ->
  (forall c, In c cache ->
             sql_key_match (incoming_key p (columns df) r) (c_key c) = false) ->
  In r (rows (to_be_written (discard_non_new_rows_against_cache hash p now df cache))).
Proof.
  intros Hr Hnew.
  change r with (j_row (mkJoined r (row_hash hash (columns df) r) None None)).
  apply priority_one_is_written; [|reflexivity].
  unfold joined_df_incoming. apply in_flat_map. exists r. split; [exact Hr|].
  rewrite join_row_unmatched by exact Hnew. left. reflexivity.
Qed.

Lemma changed_row_is_written r c h :
  In r (filter_null_keys p df) ->
  In c cache ->
  sql_key_match (incoming_key p (columns df) r) (c_key c) = true ->
  c_rowHash c = Some h ->
  h <> row_hash hash (columns df) r ->
  In r (rows (to_be_written (discard_non_new_rows_against_cache hash p now df cache))).
Proof.
  intros Hr Hc Hm Hh Hne.
  pose (j := mkJoined r (row_hash hash (columns df) r) (c_loadedTime c)
                      (hash_match (row_hash hash (columns df) r) (c_rowHash c))).
  change r with (j_row j).
  apply priority_one_is_written.
  - unfold joined_df_incoming. apply in_flat_map. exists r. split; [exact Hr|].
    apply join_row_matched; assumption.
  - unfold cache_priority, j. simpl. destruct (c_loadedTime c); [|reflexivity].
    rewrite Hh. simpl.
    destruct (Z.eqb_spec (row_hash hash (columns df) r) h) as [E|_];
      [symmetry in E; contradiction | reflexivity].
Qed.

Lemma unmatched_cache_keys d :
  In d (unmatched_cache p df cache) ->
  In d cache
  /\ forall r, In r (filter_null_keys p df) -> incoming_key p (columns df) r <> c_key d.
Proof.
  intros Hd. apply filter_In in Hd. destruct Hd as (Hd & Hno). split; [exact Hd|].
  intros r Hr E. apply negb_true_iff in Hno.
  assert (Hex : existsb (fun r => sql_key_match (incoming_key p (columns df) r) (c_key d))
                        (filter_null_keys p df) = true).
  { apply existsb_exists. exists r. split; [exact Hr|].
    rewrite <- E. apply sql_key_match_refl.
    apply filter_null_keys_In in Hr. apply Hr. }
  rewrite Hex in Hno. discriminate.
Qed.

End ReducerFacts.





(** ** One call of [save] *)

Lemma read_latest_version t :
  read_version t (latest_version t) = Some (t_current t).
Proof.
  unfold read_version, latest_version. simpl.
  rewrite nth_error_app2 by (rewrite length_rev; lia).
  rewrite length_rev, Nat.sub_diag. reflexivity.
Qed.

Lemma extract_cache_current w :
  extract_cache w = (Ok (filter active (t_current (table w))), w).
Proof. unfold extract_cache. rewrite read_latest_version. reflexivity. Qed.

Lemma save_runs_branches hash clock df w :
  subset (key_cols (params (loader w))) (columns df) = true ->
  save hash clock df w
  = (write_branch hash (params (loader w)) clock (columns df)
       (reduction hash clock df w) ;;;
     delete_branch clock (reduction hash clock df w)) w.
Proof.
  intros Hsub. unfold save. rewrite Hsub. cbn [negb]. cbv beta zeta.
  unfold bind at 1. rewrite extract_cache_current. reflexivity.
Qed.

Lemma save_missing_key_columns hash clock df w :
  subset (key_cols (params (loader w))) (columns df) = false ->
  save hash clock df w
  = (Raise (AssertionError "The key columns must be given in the input dataframe."), w).
Proof. intros Hsub. unfold save. rewrite Hsub. reflexivity. Qed.

Lemma write_branch_raises hash p clock in_cols result w e :
  write_operation (cls (loader w)) (to_be_written result) = Raise e ->
  write_branch hash p clock in_cols result w
  = (Raise e, write_called (to_be_written result) w).
Proof.
  intros H. unfold write_branch, call_write, bind, log. simpl. rewrite H. reflexivity.
Qed.

Lemma write_branch_returns hash p clock in_cols result w returned :
  write_operation (cls (loader w)) (to_be_written result) = Ok returned ->
  write_branch hash p clock in_cols result w
  = if_truthy returned (fun written =>
      record_write (count written) ;;;
      df_written_cache_update <-
        lift (prepare_written_cache_update hash p (written_at clock) written in_cols) ;;
      load_cache df_written_cache_update) (write_called (to_be_written result) w).
Proof.
  intros H. unfold write_branch, call_write, bind at 1 2, log. simpl.
  rewrite H. reflexivity.
Qed.

(** C3: when the write operation raises, [save] raises the same exception
    and leaves the world as it was but for the call of the write operation
    on the trace: the cache table is the one before the call, no cache
    update was made and the delete operation was not called. *)
Theorem C3_write_failure_leaves_cache_untouched hash clock df w e :
  subset (key_cols (params (loader w))) (columns df) = true ->
  write_operation (cls (loader w)) (to_be_written (reduction hash clock df w)) = Raise e ->
  save hash clock df w
  = (Raise e,
     mkWorld (loader w) (table w)
             (CalledWrite (to_be_written (reduction hash clock df w)) :: trace w)).
Proof.
  intros Hsub Hraise. rewrite save_runs_branches by exact Hsub.
  unfold bind. rewrite (write_branch_raises _ _ _ _ _ _ _ Hraise). reflexivity.
Qed.

Lemma C3_write_failure_leaves_cache_untouched_witness :
  let w := Fixture.world_of Fixture.params0
             (Subclass (Some Fixture.write_fails) None)
             [mkCacheRow [VInt 7] (Some 5) (Some 1000000000) None []] in
  save Fixture.demo_hash Fixture.clock0 Fixture.batch w
  = (Raise (OperationError 1),
     mkWorld (loader w) (table w) [CalledWrite Fixture.batch]).
Proof.
  cbv zeta.
  apply (C3_write_failure_leaves_cache_untouched Fixture.demo_hash Fixture.clock0
           Fixture.batch
           (Fixture.world_of Fixture.params0 (Subclass (Some Fixture.write_fails) None)
              [mkCacheRow [VInt 7] (Some 5) (Some 1000000000) None []])
           (OperationError 1)); reflexivity.
Defined.

Lemma ambiguous_nil target : ambiguous target [] = false.
Proof.
  unfold ambiguous. induction target as [|t target IH]; simpl; [reflexivity | exact IH].
Qed.

Lemma merge_rows_nil target : merge_rows target [] = target.
Proof.
  unfold merge_rows. simpl. rewrite app_nil_r.
  induction target as [|t target IH]; simpl; [reflexivity | now rewrite IH].
Qed.

Lemma load_cache_trace update w :
  trace (snd (load_cache update w)) = CalledLoadCache update :: trace w.
Proof.
  unfold load_cache, bind, log. simpl.
  destruct (ambiguous (t_current (table w)) update); reflexivity.
Qed.

Lemma load_cache_nil w :
  load_cache [] w
  = (Ok tt, mkWorld (loader w) (commit (table w) (t_current (table w)))
                    (CalledLoadCache [] :: trace w)).
Proof.
  unfold load_cache, bind, log. simpl.
  rewrite ambiguous_nil, merge_rows_nil. reflexivity.
Qed.

(** C8, as stated, fails: a write operation that returns a frame without
    rows does not make [save] skip the cache update; [_load_cache] is called
    (with no rows) between the write and the delete operation, and commits
    a version of the cache table. *)
Lemma C8_empty_frame_still_updates_cache :
  let c := Subclass (Some Fixture.write_none_empty) (Some Fixture.delete_nothing) in
  let w := Fixture.world_of Fixture.params0 c [] in
  write_operation c Fixture.batch = Ok (Some (mkDF (columns Fixture.batch) []))
  /\ save Fixture.demo_hash Fixture.clock0 Fixture.batch w
     = (Ok tt,
        mkWorld (loader w) (mkTable Fixture.schema [] [[]])
                [CalledDelete []; CalledLoadCache []; CalledWrite Fixture.batch]).
Proof. split; reflexivity. Qed.

Lemma missing_spec cols sel :
  match missing cols sel with
  | Some c => In c sel /\ ~ In c cols
  | None => forall c, In c sel -> In c cols
  end.
Proof.
  unfold missing. destruct (find _ sel) as [c|] eqn:E.
  - apply find_some in E. destruct E as (Hin & Hnot). split; [exact Hin|].
    intros Hc. apply mem_In in Hc. rewrite Hc in Hnot. discriminate.
  - intros c Hc. apply (find_none _ _ E) in Hc.
    apply negb_false_iff in Hc. apply mem_In. exact Hc.
Qed.

(** C8, amended: within [save] the cache update for written rows is made if
    and only if the write operation returns a frame that carries the key
    columns, the columns of the incoming batch and the cache id columns.
    When it returns None, [save] goes on with the delete branch at once.
    When it returns a frame that lacks one of those columns, [save] raises
    once the count is recorded: [_load_cache] is not called, the cache
    table is as it was and the delete branch is not entered.  When it
    returns a frame that carries them, with or without rows, [save] records
    the count, prepares the cache rows and calls [_load_cache] on them
    before the delete branch; for a frame without rows that merge has no
    rows and leaves the rows of the cache table as they were. *)
Theorem C8_cache_update_iff_frame_returned hash clock df w returned :
  subset (key_cols (params (loader w))) (columns df) = true ->
  write_operation (cls (loader w)) (to_be_written (reduction hash clock df w))
  = Ok returned ->
  let p := params (loader w) in
  let result := reduction hash clock df w in
  let called := write_called (to_be_written result) w in
  match returned with
  | None => save hash clock df w = delete_branch clock result called
  | Some written =>
      let recorded := write_recorded (count written) called in
      match missing (columns written)
                    (key_cols p ++ columns df ++ cache_id_cols p) with
      | Some lacking =>
          In lacking (key_cols p ++ columns df ++ cache_id_cols p)
          /\ ~ In lacking (columns written)
          /\ save hash clock df w = (Raise (AnalysisException lacking), recorded)
          /\ table recorded = table w
          /\ trace recorded = CalledWrite (to_be_written result) :: trace w
      | None =>
          let update :=
            written_cache_rows hash p (written_at clock) written (columns df) in
          (forall c, In c (key_cols p ++ columns df ++ cache_id_cols p) ->
                     In c (columns written))
          /\ save hash clock df w
             = (load_cache update ;;; delete_branch clock result) recorded
          /\ trace (snd (load_cache update recorded))
             = CalledLoadCache update :: CalledWrite (to_be_written result) :: trace w
          /\ (rows written = [] ->
              update = []
              /\ fst (load_cache update recorded) = Ok tt
              /\ t_current (table (snd (load_cache update recorded)))
                 = t_current (table w))
      end
  end.
Proof.
  intros Hsub Hret. cbv zeta.
  rewrite save_runs_branches by exact Hsub.
  destruct returned as [written|].
  - pose proof (missing_spec (columns written)
                  (key_cols (params (loader w)) ++ columns df
                   ++ cache_id_cols (params (loader w)))) as Hm.
    assert (Hrun : (write_branch hash (params (loader w)) clock (columns df)
                      (reduction hash clock df w) ;;;
                    delete_branch clock (reduction hash clock df w)) w
                   = match prepare_written_cache_update hash (params (loader w))
                             (written_at clock) written (columns df) with
                     | Ok update =>
                         (load_cache update ;;;
                          delete_branch clock (reduction hash clock df w))
                           (write_recorded (count written)
                              (write_called
                                 (to_be_written (reduction hash clock df w)) w))
                     | Raise e =>
                         (Raise e,
                          write_recorded (count written)
                            (write_called
                               (to_be_written (reduction hash clock df w)) w))
                     end).
    { unfold bind at 1. rewrite (write_branch_returns _ _ _ _ _ _ _ Hret).
      unfold if_truthy. simpl truthy. cbv iota.
      unfold bind at 1 2, record_write, lift. simpl.
      destruct (prepare_written_cache_update _ _ _ _ _); reflexivity. }
    rewrite Hrun. unfold prepare_written_cache_update.
    destruct (missing _ _) as [lacking|].
    + destruct Hm as (Hin & Hout).
      split; [exact Hin|]. split; [exact Hout|]. repeat split.
    + split; [exact Hm|]. split; [reflexivity|]. split.
      * rewrite load_cache_trace. reflexivity.
      * intros Hempty. unfold written_cache_rows. rewrite Hempty. simpl.
        rewrite load_cache_nil. simpl. repeat split.
  - unfold bind at 1. rewrite (write_branch_returns _ _ _ _ _ _ _ Hret). reflexivity.
Qed.

Lemma C8_cache_update_iff_frame_returned_witness :
  let c := Subclass (Some Fixture.write_none_empty) (Some Fixture.delete_nothing) in
  let w := Fixture.world_of Fixture.params0 c [] in
  trace (snd (load_cache [] (write_recorded 0 (write_called Fixture.batch w))))
  = [CalledLoadCache []; CalledWrite Fixture.batch].
Proof.
  cbv zeta.
  apply (C8_cache_update_iff_frame_returned Fixture.demo_hash Fixture.clock0
           Fixture.batch
           (Fixture.world_of Fixture.params0
              (Subclass (Some Fixture.write_none_empty) (Some Fixture.delete_nothing)) [])
           (Some (mkDF (columns Fixture.batch) []))
           eq_refl eq_refl).
Defined.

(** ** The order of the window *)

Lemma opt_leb_total a b : opt_leb a b = false -> opt_leb b a = true.
Proof.
  destruct a as [x|], b as [y|]; simpl; intros H; try discriminate; try reflexivity.
  apply Z.leb_gt in H. apply Z.leb_le. lia.
Qed.

Lemma opt_leb_trans a b c :
  opt_leb a b = true -> opt_leb b c = true -> opt_leb a c = true.
Proof.
  destruct a as [x|], b as [y|], c as [z|]; simpl; intros H1 H2;
    try discriminate; try reflexivity.
  apply Z.leb_le in H1, H2. apply Z.leb_le. lia.
Qed.

Lemma window_leb_spec a b :
  window_leb a b = true <->
  cachePriority a < cachePriority b
  \/ (cachePriority a = cachePriority b /\ loaded_leb a b = true).
Proof.
  unfold window_leb, loaded_leb.
  rewrite orb_true_iff, andb_true_iff, Z.ltb_lt, Z.eqb_eq. reflexivity.
Qed.

Lemma window_leb_total a b : window_leb a b = false -> window_le b a.
Proof.
  intros H. unfold window_le. apply window_leb_spec.
  destruct (Z.lt_trichotomy (cachePriority a) (cachePriority b)) as [Hlt|[Heq|Hgt]].
  - assert (T : window_leb a b = true) by (apply window_leb_spec; left; exact Hlt).
    rewrite T in H. discriminate.
  - right. split; [symmetry; exact Heq|].
    unfold loaded_leb. apply opt_leb_total.
    destruct (opt_leb _ _) eqn:E; [|reflexivity].
    assert (T : window_leb a b = true) by (apply window_leb_spec; right; split; assumption).
    rewrite T in H. discriminate.
  - left. exact Hgt.
Qed.

Lemma window_le_trans a b c : window_le a b -> window_le b c -> window_le a c.
Proof.
  unfold window_le. rewrite !window_leb_spec.
  intros [H1|(E1 & L1)] [H2|(E2 & L2)].
  - left. lia.
  - left. lia.
  - left. lia.
  - right. split; [lia|]. unfold loaded_leb in *. eapply opt_leb_trans; eassumption.
Qed.

Lemma window_le_priority a b : window_le a b -> cachePriority a <= cachePriority b.
Proof.
  unfold window_le. rewrite window_leb_spec. intros [H|(H & _)]; lia.
Qed.

Lemma insert_sorted_sorted x l :
  StronglySorted window_le l -> StronglySorted window_le (insert_sorted x l).
Proof.
  induction 1 as [|y l Hs IH Hall]; simpl.
  - repeat constructor.
  - destruct (window_leb x y) eqn:E.
    + constructor; [constructor; assumption|].
      constructor; [exact E|].
      eapply Forall_impl; [|exact Hall].
      intros z Hz. eapply window_le_trans; [exact E | exact Hz].
    + constructor; [exact IH|].
      apply Forall_forall. intros z Hz.
      apply (Permutation_in _ (Permutation_sym (insert_sorted_perm x l))) in Hz.
      destruct Hz as [<-|Hz].
      * apply window_leb_total. exact E.
      * rewrite Forall_forall in Hall. apply Hall. exact Hz.
Qed.

Lemma window_sort_sorted l : StronglySorted window_le (window_sort l).
Proof.
  induction l as [|x l IH]; simpl; [constructor|].
  apply insert_sorted_sorted. exact IH.
Qed.

Lemma filter_none {A} (f : A -> bool) l :
  Forall (fun x => f x = false) l -> filter f l = [].
Proof.
  induction 1 as [|x l Hx _ IH]; simpl; [reflexivity|]. rewrite Hx. exact IH.
Qed.

Lemma filter_all {A} (f : A -> bool) l :
  Forall (fun x => f x = true) l -> filter f l = l.
Proof.
  induction 1 as [|x l Hx _ IH]; simpl; [reflexivity|]. rewrite Hx, IH. reflexivity.
Qed.

(** A list in window order is its rows of priority below 3 followed by the
    others. *)
Lemma sorted_low_then_high s :
  StronglySorted window_le s -> s = filter low s ++ filter high s.
Proof.
  induction 1 as [|x s Hs IH Hall]; [reflexivity|].
  simpl. unfold high at 1. destruct (low x) eqn:Hx; simpl.
  - f_equal. exact IH.
  - assert (Hhigh : Forall (fun z => low z = false) s).
    { eapply Forall_impl; [|exact Hall]. intros z Hz. simpl in Hz.
      apply window_le_priority in Hz. unfold low in *.
      apply Z.ltb_ge in Hx. apply Z.ltb_ge. lia. }
    rewrite (filter_none low s Hhigh). simpl. f_equal.
    symmetry. apply filter_all.
    eapply Forall_impl; [|exact Hhigh]. intros z Hz. simpl in Hz.
    unfold high. rewrite Hz. reflexivity.
Qed.

Lemma row_number_app a : forall b n,
  row_number n (a ++ b)
  = row_number n a ++ row_number (n + Z.of_nat (List.length a)) b.
Proof.
  induction a as [|x a IH]; intros b n; simpl.
  - f_equal. lia.
  - rewrite IH. do 3 f_equal. lia.
Qed.

Lemma row_number_bounds l : forall n x k,
  In (x, k) (row_number n l) -> n <= k < n + Z.of_nat (List.length l).
Proof.
  induction l as [|y l IH]; intros n x k Hin; [contradiction|].
  simpl in Hin. destruct Hin as [E|Hin].
  - injection E as _ <-. simpl List.length. lia.
  - apply IH in Hin. simpl List.length. lia.
Qed.

Lemma row_number_In_inv l : forall n x k, In (x, k) (row_number n l) -> In x l.
Proof.
  intros n x k Hin. rewrite <- (row_number_fst l n).
  apply in_map_iff. exists (x, k). split; [reflexivity | exact Hin].
Qed.

Lemma limit_keeps_low limit a : forall n,
  Forall (fun x => low x = true) a ->
  map fst (filter (within_limit limit) (row_number n a)) = a.
Proof.
  induction a as [|x a IH]; intros n Hall; [reflexivity|].
  inversion Hall as [|? ? Hx Hall']; subst. simpl.
  unfold within_limit at 1. simpl. unfold low in Hx. rewrite Hx. simpl.
  f_equal. apply IH. exact Hall'.
Qed.

Lemma limit_cuts_high limit b : forall n,
  Forall (fun x => low x = false) b ->
  map fst (filter (within_limit limit) (row_number n b))
  = firstn (Z.to_nat (limit - n + 1)) b.
Proof.
  induction b as [|x b IH]; intros n Hall.
  - simpl. rewrite firstn_nil. reflexivity.
  - inversion Hall as [|? ? Hx Hall']; subst. simpl.
    unfold within_limit at 1. simpl. unfold low in Hx. rewrite Hx. simpl.
    destruct (Z.leb_spec n limit) as [Hle|Hgt]; simpl; rewrite (IH (n + 1) Hall').
    + replace (Z.to_nat (limit - n + 1)) with (S (Z.to_nat (limit - (n + 1) + 1))) by lia.
      reflexivity.
    + replace (Z.to_nat (limit - (n + 1) + 1)) with 0%nat by lia.
      replace (Z.to_nat (limit - n + 1)) with 0%nat by lia.
      reflexivity.
Qed.

Lemma Forall_filter_true {A} (f : A -> bool) l : Forall (fun x => f x = true) (filter f l).
Proof. apply Forall_forall. intros x Hx. apply filter_In in Hx. apply Hx. Qed.

(** The rows the limit lets through, whatever order the window gives to
    rows that tie: all of priority below 3, and of the others, in window
    order, as many as the limit leaves after those. *)
Lemma limit_ranked_shape limit ranked :
  StronglySorted window_le ranked ->
  limit_ranked limit ranked
  = filter low ranked
    ++ firstn (Z.to_nat (limit - Z.of_nat (List.length (filter low ranked))))
              (filter high ranked).
Proof.
  intros Hsorted. unfold limit_ranked.
  rewrite (sorted_low_then_high _ Hsorted) at 1.
  rewrite row_number_app, filter_app, map_app.
  rewrite limit_keeps_low by apply Forall_filter_true.
  rewrite limit_cuts_high.
  - do 2 f_equal. lia.
  - eapply Forall_impl; [|apply (Forall_filter_true high)].
    intros x Hx. simpl in Hx. unfold high in Hx. apply negb_true_iff in Hx. exact Hx.
Qed.

Lemma filter_length_perm {A} (f : A -> bool) l l' :
  Permutation l l' -> List.length (filter f l) = List.length (filter f l').
Proof.
  induction 1 as [|x l l' _ IH|x y l|l l' l'' _ IH1 _ IH2]; simpl.
  - reflexivity.
  - destruct (f x); simpl; congruence.
  - destruct (f x), (f y); reflexivity.
  - congruence.
Qed.

Lemma perm_filter {A} (f : A -> bool) l l' :
  Permutation l l' -> Permutation (filter f l) (filter f l').
Proof.
  induction 1 as [|x l l' _ IH|x y l|l l' l'' _ IH1 _ IH2]; simpl.
  - constructor.
  - destruct (f x); [apply perm_skip|]; exact IH.
  - destruct (f x), (f y); try reflexivity. apply perm_swap.
  - etransitivity; eassumption.
Qed.

Lemma soft_rows_by_load_time s :
  StronglySorted window_le s -> StronglySorted loaded_le (filter soft_refresh s).
Proof.
  induction 1 as [|x s Hs IH Hall]; simpl; [constructor|].
  destruct (soft_refresh x) eqn:Hx; [|exact IH].
  constructor; [exact IH|].
  apply Forall_forall. intros z Hz. apply filter_In in Hz. destruct Hz as (Hz & Hz3).
  rewrite Forall_forall in Hall. specialize (Hall z Hz).
  unfold window_le in Hall. apply window_leb_spec in Hall.
  unfold soft_refresh in Hx, Hz3. apply Z.eqb_eq in Hx, Hz3.
  destruct Hall as [Hlt|(_ & Hl)]; [lia | exact Hl].
Qed.

Lemma cache_priority_values p now j :
  cache_priority p now j = 1 \/ cache_priority p now j = 2
  \/ cache_priority p now j = 3 \/ cache_priority p now j = 1000.
Proof.
  unfold cache_priority. destruct (j_loadedTime j); [|auto].
  destruct (is_false _); [auto|].
  destruct (_ && _); [auto|]. destruct (_ && _); auto.
Qed.

Lemma prioritised_listed hash p now df cache :
  Forall listed (prioritised hash p now df cache).
Proof.
  apply Forall_forall. intros x Hx. apply prioritised_In in Hx.
  destruct Hx as (_ & _ & _ & Hp & Hlt). unfold listed.
  destruct (cache_priority_values p now (pr_joined x)) as [H|[H|[H|H]]]; lia.
Qed.

Lemma listed_high_is_soft l :
  Forall listed l -> filter high l = filter soft_refresh l.
Proof.
  intros Hall. apply filter_ext_in. intros x Hx.
  rewrite Forall_forall in Hall. specialize (Hall x Hx).
  unfold high, low, soft_refresh, listed in *.
  destruct (Z.ltb_spec (cachePriority x) 3), (Z.eqb_spec (cachePriority x) 3);
    simpl; try reflexivity; lia.
Qed.

Lemma listed_low_count l :
  Forall listed l ->
  Z.of_nat (List.length (filter low l)) = count_priority 1 l + count_priority 2 l.
Proof.
  unfold count_priority.
  induction 1 as [|x l Hx _ IH]; [reflexivity|].
  simpl. unfold listed in Hx. unfold low at 1.
  destruct (Z.ltb_spec (cachePriority x) 3), (Z.eqb_spec (cachePriority x) 1),
    (Z.eqb_spec (cachePriority x) 2); simpl List.length; lia.
Qed.

Lemma count_priority_perm n l l' :
  Permutation l l' -> count_priority n l = count_priority n l'.
Proof.
  intros H. unfold count_priority. f_equal.
  apply Permutation_length, perm_filter, H.
Qed.

Lemma window_sort_listed l : Forall listed l -> Forall listed (window_sort l).
Proof.
  intros H. eapply Permutation_Forall; [apply window_sort_perm | exact H].
Qed.

(** The rows the limit lets through, for rows of priority 1, 2 and 3. *)
Lemma limit_ranked_listed limit l ranked :
  Forall listed l -> Permutation l ranked -> StronglySorted window_le ranked ->
  limit_ranked limit ranked
  = filter low ranked
    ++ firstn (Z.to_nat (limit - count_priority 1 l - count_priority 2 l))
              (filter soft_refresh ranked).
Proof.
  intros Hall Hperm Hsorted. rewrite (limit_ranked_shape _ _ Hsorted).
  assert (Hranked : Forall listed ranked)
    by (eapply Permutation_Forall; eassumption).
  rewrite (listed_high_is_soft _ Hranked), (listed_low_count _ Hranked).
  rewrite <- !(count_priority_perm _ _ _ Hperm).
  do 3 f_equal. lia.
Qed.

Lemma low_not_soft l : filter soft_refresh (filter low l) = [].
Proof.
  apply filter_none. apply Forall_forall. intros x Hx.
  apply filter_In in Hx. destruct Hx as (_ & Hx).
  unfold low in Hx. unfold soft_refresh. apply Z.ltb_lt in Hx. apply Z.eqb_neq. lia.
Qed.

Lemma firstn_incl {A} n : forall (l : list A) x, In x (firstn n l) -> In x l.
Proof.
  induction n as [|n IH]; intros [|y l] x Hx; simpl in Hx; try contradiction.
  destruct Hx as [<-|Hx]; [left; reflexivity | right; apply IH; exact Hx].
Qed.

Lemma firstn_soft n l :
  filter soft_refresh (firstn n (filter soft_refresh l))
  = firstn n (filter soft_refresh l).
Proof.
  apply filter_all. apply Forall_forall. intros x Hx.
  apply firstn_incl in Hx. apply filter_In in Hx. apply Hx.
Qed.

Lemma soft_after_ranking limit l ranked :
  Forall listed l -> Permutation l ranked -> StronglySorted window_le ranked ->
  filter soft_refresh (limit_ranked limit ranked)
  = firstn (Z.to_nat (limit - count_priority 1 l - count_priority 2 l))
           (filter soft_refresh ranked).
Proof.
  intros Hall Hperm Hsorted. rewrite (limit_ranked_listed _ _ _ Hall Hperm Hsorted).
  rewrite filter_app, low_not_soft, firstn_soft. reflexivity.
Qed.

Lemma soft_after_limit limit l :
  Forall listed l ->
  filter soft_refresh (apply_row_limit limit l)
  = firstn (Z.to_nat (limit - count_priority 1 l - count_priority 2 l))
           (filter soft_refresh (window_sort l)).
Proof.
  intros Hall. unfold apply_row_limit.
  apply soft_after_ranking;
    [exact Hall | apply window_sort_perm | apply window_sort_sorted].
Qed.

Lemma count_soft l :
  count_priority 3 l = Z.of_nat (List.length (filter soft_refresh l)).
Proof. reflexivity. Qed.

(** The number of soft-refresh rows the limit lets through does not depend
    on how the window orders rows that tie. *)
Lemma soft_count_after_ranking limit l ranked :
  Forall listed l -> Permutation l ranked -> StronglySorted window_le ranked ->
  count_priority 3 (limit_ranked limit ranked)
  = Z.max 0 (Z.min (count_priority 3 l)
                   (limit - count_priority 1 l - count_priority 2 l)).
Proof.
  intros Hall Hperm Hsorted.
  rewrite count_soft, (soft_after_ranking _ _ _ Hall Hperm Hsorted), length_firstn.
  rewrite (count_soft l).
  rewrite (Permutation_length (perm_filter soft_refresh _ _ Hperm)).
  lia.
Qed.

(** ** The row budget *)

(** C2, as stated, fails: with [refresh_row_limit = 1], one new row and one
    unchanged row that is due for a soft refresh, the new row takes the
    only rank within the limit and the soft-refresh row is not written,
    although the limit would admit one row of priority 3. *)
Lemma C2_new_rows_use_up_the_limit :
  let p := Fixture.params_with 0 10 1 in
  let cache := [mkCacheRow [VInt 1] (Some (Fixture.demo_hash [VInt 1; VStr "a"]))
                           (Some 1000000000) None []] in
  let before := prioritised Fixture.demo_hash p (2000 # 1) Fixture.batch cache in
  let result := discard_non_new_rows_against_cache Fixture.demo_hash p (2000 # 1)
                  Fixture.batch cache in
  refresh_row_limit p = 1
  /\ map (fun x => (j_row (pr_joined x), cachePriority x)) before
     = [([VInt 1; VStr "a"], 3); ([VInt 2; VStr "bb"], 1)]
  /\ rows (to_be_written result) = [[VInt 2; VStr "bb"]].
Proof. repeat split. Qed.

(** C2, amended: rows of priority 1 and 2 are always in the result.  With
    [refresh_row_limit <= 0] the result is all rows of priority 1, 2 and 3.
    With [refresh_row_limit > 0] the rows of priority 3 are taken in the
    order of the window, which among them is ascending load time, and those
    in the result are the first [refresh_row_limit - n1 - n2] of them (none
    when that number is not positive), [n1] and [n2] being the numbers of
    rows of priority 1 and 2; the same holds of every order the window may
    give to rows that tie. *)
Theorem C2_row_limit_admits_oldest_within_budget hash p now df cache :
  let before := prioritised hash p now df cache in
  let after := filtered_df hash p now df cache in
  let soft := filter soft_refresh (window_sort before) in
  let budget := Z.to_nat (refresh_row_limit p
                          - count_priority 1 before - count_priority 2 before) in
  (forall x, In x before -> cachePriority x < 3 -> In x after)
  /\ (refresh_row_limit p <= 0 -> after = before)
  /\ (0 < refresh_row_limit p ->
      StronglySorted loaded_le soft
      /\ Permutation soft (filter soft_refresh before)
      /\ filter soft_refresh after = firstn budget soft
      /\ forall ranked,
           Permutation before ranked -> StronglySorted window_le ranked ->
           StronglySorted loaded_le (filter soft_refresh ranked)
           /\ filter soft_refresh (limit_ranked (refresh_row_limit p) ranked)
              = firstn budget (filter soft_refresh ranked)).
Proof.
  cbv zeta. split; [|split].
  - intros x Hx Hlow. apply filtered_df_keeps_low; assumption.
  - intros Hle. unfold filtered_df.
    destruct (Z.ltb_spec 0 (refresh_row_limit p)); [lia | reflexivity].
  - intros Hpos. split; [|split; [|split]].
    + apply soft_rows_by_load_time, window_sort_sorted.
    + apply perm_filter, Permutation_sym, window_sort_perm.
    + unfold filtered_df.
      destruct (Z.ltb_spec 0 (refresh_row_limit p)); [|lia].
      apply soft_after_limit, prioritised_listed.
    + intros ranked Hperm Hsorted. split.
      * apply soft_rows_by_load_time. exact Hsorted.
      * apply soft_after_ranking; [apply prioritised_listed | assumption..].
Qed.

Lemma C2_row_limit_admits_oldest_within_budget_witness :
  let p := Fixture.params_with 0 10 2 in
  let cache := [mkCacheRow [VInt 1] (Some (Fixture.demo_hash [VInt 1; VStr "a"]))
                           (Some 1000000000) None []] in
  let before := prioritised Fixture.demo_hash p (2000 # 1) Fixture.batch cache in
  let after := filtered_df Fixture.demo_hash p (2000 # 1) Fixture.batch cache in
  filter soft_refresh after
  = firstn (Z.to_nat (refresh_row_limit p
                      - count_priority 1 before - count_priority 2 before))
           (filter soft_refresh (window_sort before)).
Proof.
  cbv zeta.
  destruct (proj2 (proj2 (C2_row_limit_admits_oldest_within_budget Fixture.demo_hash
                            (Fixture.params_with 0 10 2) (2000 # 1) Fixture.batch
                            [mkCacheRow [VInt 1]
                                        (Some (Fixture.demo_hash [VInt 1; VStr "a"]))
                                        (Some 1000000000) None []]))
                  eq_refl) as (_ & _ & H & _).
  exact H.
Defined.

Lemma written_count_under_limit hash p now df cache :
  0 < refresh_row_limit p ->
  Z.of_nat (List.length
              (rows (to_be_written
                       (discard_non_new_rows_against_cache hash p now df cache))))
  = count_priority 1 (prioritised hash p now df cache)
    + count_priority 2 (prioritised hash p now df cache)
    + Z.max 0 (Z.min (count_priority 3 (prioritised hash p now df cache))
                     (refresh_row_limit p
                      - count_priority 1 (prioritised hash p now df cache)
                      - count_priority 2 (prioritised hash p now df cache))).
Proof.
  intros Hpos. simpl. rewrite length_map. unfold filtered_df.
  destruct (Z.ltb_spec 0 (refresh_row_limit p)); [|lia].
  set (before := prioritised hash p now df cache).
  assert (Hlisted : Forall listed before) by apply prioritised_listed.
  unfold apply_row_limit.
  rewrite (limit_ranked_listed _ _ _ Hlisted (window_sort_perm before)
             (window_sort_sorted before)).
  rewrite length_app, length_firstn.
  pose proof (listed_low_count _ (window_sort_listed before Hlisted)) as Hlow.
  rewrite <- !(count_priority_perm _ _ _ (window_sort_perm before)) in Hlow.
  pose proof (count_soft (window_sort before)) as Hsoft.
  rewrite <- (count_priority_perm _ _ _ (window_sort_perm before)) in Hsoft.
  lia.
Qed.

(** C9: with [refresh_row_limit > 0] the window ranks every row of priority
    1 or 2 before every row of priority 3, and the number of rows of
    priority 3 in the result is [max 0 (min n3 (limit - n1 - n2))], in
    whatever order the window puts rows that tie; when [n1 + n2 >= limit]
    the result has no row of priority 3.  The rows of [to_be_written] are
    the rows of that result, so their number is
    [n1 + n2 + max 0 (min n3 (limit - n1 - n2))]. *)
Theorem C9_soft_refresh_budget hash p now df cache :
  0 < refresh_row_limit p ->
  let before := prioritised hash p now df cache in
  let after := filtered_df hash p now df cache in
  let n1 := count_priority 1 before in
  let n2 := count_priority 2 before in
  let n3 := count_priority 3 before in
  (forall ranked a b ka kb,
      StronglySorted window_le ranked ->
      In (a, ka) (row_number 1 ranked) ->
      In (b, kb) (row_number 1 ranked) ->
      cachePriority a < 3 -> cachePriority b = 3 -> ka < kb)
  /\ StronglySorted window_le (window_sort before)
  /\ count_priority 3 after = Z.max 0 (Z.min n3 (refresh_row_limit p - n1 - n2))
  /\ (forall ranked,
         Permutation before ranked -> StronglySorted window_le ranked ->
         count_priority 3 (limit_ranked (refresh_row_limit p) ranked)
         = Z.max 0 (Z.min n3 (refresh_row_limit p - n1 - n2)))
  /\ (refresh_row_limit p <= n1 + n2 -> forall x, In x after -> cachePriority x <> 3)
  /\ rows (to_be_written (discard_non_new_rows_against_cache hash p now df cache))
     = map (fun x => j_row (pr_joined x)) after
  /\ Z.of_nat (List.length
                 (rows (to_be_written
                          (discard_non_new_rows_against_cache hash p now df cache))))
     = n1 + n2 + Z.max 0 (Z.min n3 (refresh_row_limit p - n1 - n2))
  /\ (refresh_row_limit p <= n1 + n2 ->
      forall r,
        In r (rows (to_be_written
                      (discard_non_new_rows_against_cache hash p now df cache))) ->
        exists x, In x before /\ cachePriority x < 3 /\ j_row (pr_joined x) = r).
Proof.
  intros Hpos. cbv zeta.
  set (before := prioritised hash p now df cache).
  assert (Hlisted : Forall listed before) by apply prioritised_listed.
  assert (Hafter : filtered_df hash p now df cache
                   = limit_ranked (refresh_row_limit p) (window_sort before)).
  { unfold filtered_df. destruct (Z.ltb_spec 0 (refresh_row_limit p)); [|lia].
    reflexivity. }
  assert (Hnone : refresh_row_limit p <= count_priority 1 before + count_priority 2 before ->
                  forall x, In x (filtered_df hash p now df cache) ->
                            cachePriority x <> 3).
  { intros Hfull x Hx Hp3.
    assert (Hin : In x (filter soft_refresh (filtered_df hash p now df cache))).
    { apply filter_In. split; [exact Hx|]. unfold soft_refresh. apply Z.eqb_eq. exact Hp3. }
    rewrite Hafter in Hin.
    rewrite (soft_after_ranking _ _ _ Hlisted (window_sort_perm before)
               (window_sort_sorted before)) in Hin.
    replace (Z.to_nat _) with 0%nat in Hin by lia. exact Hin. }
  split; [|split; [|split; [|split; [|split; [|split; [|split]]]]]].
  - intros ranked a b ka kb Hsorted Ha Hb Hpa Hpb.
    rewrite (sorted_low_then_high _ Hsorted) in Ha, Hb.
    rewrite row_number_app in Ha, Hb.
    apply in_app_or in Ha, Hb.
    destruct Hb as [Hb|Hb].
    { apply row_number_In_inv, filter_In in Hb. destruct Hb as (_ & Hb).
      unfold low in Hb. apply Z.ltb_lt in Hb. lia. }
    destruct Ha as [Ha|Ha].
    + apply row_number_bounds in Ha, Hb. lia.
    + apply row_number_In_inv, filter_In in Ha. destruct Ha as (_ & Ha).
      unfold high, low in Ha. apply negb_true_iff, Z.ltb_ge in Ha. lia.
  - apply window_sort_sorted.
  - rewrite Hafter.
    apply soft_count_after_ranking;
      [exact Hlisted | apply window_sort_perm | apply window_sort_sorted].
  - intros ranked Hperm Hsorted. apply soft_count_after_ranking; assumption.
  - exact Hnone.
  - reflexivity.
  - apply written_count_under_limit. exact Hpos.
  - intros Hfull r Hr. simpl in Hr. apply in_map_iff in Hr.
    destruct Hr as (x & Hrow & Hx). exists x.
    split; [apply filtered_df_incl; exact Hx|]. split; [|exact Hrow].
    pose proof (Hnone Hfull x Hx) as Hnot3.
    apply filtered_df_incl in Hx. rewrite Forall_forall in Hlisted.
    specialize (Hlisted x Hx). unfold listed in Hlisted. lia.
Qed.

Lemma C9_soft_refresh_budget_witness :
  let p := Fixture.params_with 0 10 1 in
  let cache := [mkCacheRow [VInt 1] (Some (Fixture.demo_hash [VInt 1; VStr "a"]))
                           (Some 1000000000) None []] in
  let before := prioritised Fixture.demo_hash p (2000 # 1) Fixture.batch cache in
  Z.of_nat (List.length
              (rows (to_be_written
                       (discard_non_new_rows_against_cache Fixture.demo_hash p
                          (2000 # 1) Fixture.batch cache))))
  = count_priority 1 before + count_priority 2 before
    + Z.max 0 (Z.min (count_priority 3 before)
                     (refresh_row_limit p
                      - count_priority 1 before - count_priority 2 before)).
Proof.
  cbv zeta.
  destruct (C9_soft_refresh_budget Fixture.demo_hash (Fixture.params_with 0 10 1)
              (2000 # 1) Fixture.batch
              [mkCacheRow [VInt 1] (Some (Fixture.demo_hash [VInt 1; VStr "a"]))
                          (Some 1000000000) None []]
              eq_refl) as (_ & _ & _ & _ & _ & _ & H & _).
  exact H.
Defined.

(** ** What the two branches do to the world *)

Lemma load_cache_run update w :
  load_cache update w
  = if ambiguous (t_current (table w)) update
    then (Raise MergeError,
          mkWorld (loader w) (table w) (CalledLoadCache update :: trace w))
    else (Ok tt,
          mkWorld (loader w)
                  (commit (table w) (merge_rows (t_current (table w)) update))
                  (CalledLoadCache update :: trace w)).
Proof. unfold load_cache, bind, log. simpl. reflexivity. Qed.

Lemma write_branch_effect hash p clock in_cols result w :
  let run := write_branch hash p clock in_cols result w in
  params (loader (snd run)) = params (loader w)
  /\ cls (loader (snd run)) = cls (loader w)
  /\ delete_offers (trace (snd run)) = delete_offers (trace w)
  /\ write_offers (trace (snd run)) = to_be_written result :: write_offers (trace w)
  /\ match write_operation (cls (loader w)) (to_be_written result) with
     | Raise e =>
         fst run = Raise e /\ t_current (table (snd run)) = t_current (table w)
     | Ok None =>
         fst run = Ok tt /\ t_current (table (snd run)) = t_current (table w)
     | Ok (Some written) =>
         match prepare_written_cache_update hash p (written_at clock) written in_cols with
         | Raise e =>
             fst run = Raise e /\ t_current (table (snd run)) = t_current (table w)
         | Ok update =>
             if ambiguous (t_current (table w)) update
             then fst run = Raise MergeError
                  /\ t_current (table (snd run)) = t_current (table w)
             else fst run = Ok tt
                  /\ t_current (table (snd run))
                     = merge_rows (t_current (table w)) update
         end
     end.
Proof.
  cbv zeta.
  destruct (write_operation (cls (loader w)) (to_be_written result))
    as [[written|]|e] eqn:Hop.
  - rewrite (write_branch_returns _ _ _ _ _ _ _ Hop).
    cbv [if_truthy truthy bind record_write lift write_called].
    cbn [loader table trace params cls].
    destruct (prepare_written_cache_update hash p (written_at clock) written in_cols)
      as [update|e]; cbv beta iota; [|simpl; auto 6].
    rewrite load_cache_run. cbn [loader table trace params cls].
    destruct (ambiguous (t_current (table w)) update); simpl; auto 6.
  - rewrite (write_branch_returns _ _ _ _ _ _ _ Hop). simpl. auto 6.
  - rewrite (write_branch_raises _ _ _ _ _ _ _ Hop). simpl. auto 6.
Qed.

Lemma delete_branch_effect clock result w :
  let run := delete_branch clock result w in
  params (loader (snd run)) = params (loader w)
  /\ cls (loader (snd run)) = cls (loader w)
  /\ delete_offers (trace (snd run)) = to_be_deleted result :: delete_offers (trace w)
  /\ write_offers (trace (snd run)) = write_offers (trace w)
  /\ match delete_operation (cls (loader w)) (to_be_deleted result) with
     | Raise e =>
         fst run = Raise e /\ t_current (table (snd run)) = t_current (table w)
     | Ok None =>
         fst run = Ok tt /\ t_current (table (snd run)) = t_current (table w)
     | Ok (Some deleted) =>
         let update := prepare_deleted_cache_update (deleted_at clock) deleted in
         if ambiguous (t_current (table w)) update
         then fst run = Raise MergeError
              /\ t_current (table (snd run)) = t_current (table w)
         else fst run = Ok tt
              /\ t_current (table (snd run))
                 = merge_rows (t_current (table w)) update
     end.
Proof.
  cbv zeta. cbv [delete_branch call_delete bind log if_truthy truthy].
  cbn [loader table trace params cls].
  destruct (delete_operation (cls (loader w)) (to_be_deleted result))
    as [[deleted|]|e]; cbv beta iota; [|simpl; auto 6..].
  rewrite load_cache_run. cbn [loader table trace params cls].
  destruct (ambiguous (t_current (table w)) _); simpl; auto 6.
Qed.

(** ** The merge into the cache table *)

Lemma merge_rows_In target source t' :
  In t' (merge_rows target source) ->
  (In t' target /\ source_matches source t' = []) \/ In t' source.
Proof.
  unfold merge_rows. intros H. apply in_app_or in H. destruct H as [H|H].
  - apply in_map_iff in H. destruct H as (t & E & Ht).
    destruct (source_matches source t) as [|s ms] eqn:Hm.
    + subst t'. left. split; assumption.
    + subst t'. right.
      assert (Hs : In s (source_matches source t)) by (rewrite Hm; left; reflexivity).
      apply filter_In in Hs. apply Hs.
  - apply filter_In in H. right. apply H.
Qed.

Lemma source_matches_key source t s :
  In s source -> c_key s = c_key t -> no_nulls (c_key t) = true ->
  source_matches source t <> [].
Proof.
  intros Hs E Hnn Hnil.
  assert (Hin : In s (source_matches source t)).
  { apply filter_In. split; [exact Hs|]. rewrite E. apply sql_key_match_refl. exact Hnn. }
  rewrite Hnil in Hin. exact Hin.
Qed.




(** ** Deduplication *)

Lemma drop_duplicate_rows_incl cols ks l r :
  In r (drop_duplicate_rows cols ks l) -> In r l.
Proof.
  induction l as [|a l IH]; simpl; [auto|].
  intros [E|H]; [left; exact E|].
  apply filter_In in H. right. apply IH. apply H.
Qed.

Lemma drop_duplicate_rows_represents cols ks l r :
  In r l ->
  exists r', In r' (drop_duplicate_rows cols ks l)
             /\ project cols ks r' = project cols ks r.
Proof.
  induction l as [|a l IH]; [contradiction|].
  intros [E|H].
  - subst a. exists r. split; [left|]; reflexivity.
  - destruct (IH H) as (r' & Hr' & Hk). simpl.
    destruct (key_eqb (project cols ks a) (project cols ks r')) eqn:E.
    + exists a. split; [left; reflexivity|].
      apply key_eqb_eq in E. congruence.
    + exists r'. split; [|exact Hk]. right. apply filter_In. split; [exact Hr'|].
      rewrite E. reflexivity.
Qed.

Lemma drop_duplicate_rows_unique cols ks l r1 r2 :
  In r1 (drop_duplicate_rows cols ks l) ->
  In r2 (drop_duplicate_rows cols ks l) ->
  project cols ks r1 = project cols ks r2 -> r1 = r2.
Proof.
  induction l as [|a l IH]; [contradiction|]. simpl.
  intros [E1|H1] [E2|H2] Hk.
  - congruence.
  - subst a. apply filter_In in H2. destruct H2 as (_ & H2).
    apply negb_true_iff in H2. rewrite Hk in H2.
    assert (T : key_eqb (project cols ks r2) (project cols ks r2) = true)
      by (apply key_eqb_eq; reflexivity).
    rewrite T in H2. discriminate.
  - subst a. apply filter_In in H1. destruct H1 as (_ & H1).
    apply negb_true_iff in H1. rewrite <- Hk in H1.
    assert (T : key_eqb (project cols ks r1) (project cols ks r1) = true)
      by (apply key_eqb_eq; reflexivity).
    rewrite T in H1. discriminate.
  - apply filter_In in H1, H2. apply IH; [apply H1 | apply H2 | exact Hk].
Qed.

(** ** Deleted keys *)

Lemma active_spec c :
  active c = true <->
  c_deletedTime c = None /\ c_rowHash c <> None /\ c_loadedTime c <> None.
Proof.
  unfold active.
  destruct (c_deletedTime c), (c_rowHash c), (c_loadedTime c); split;
    try discriminate; try (intros (H1 & H2 & H3); congruence);
    intros _; repeat split; discriminate.
Qed.


Lemma offered_rows_in_batch hash clock df w r :
  In r (rows (to_be_written (reduction hash clock df w))) -> In r (rows df).
Proof.
  unfold reduction. intros H. apply written_row_is_incoming in H.
  apply filter_null_keys_In in H. destruct H as (H & _).
  simpl in H. eapply drop_duplicate_rows_incl. exact H.
Qed.










(** ** Running [save] again *)

Lemma subset_In xs ys c : subset xs ys = true -> In c xs -> In c ys.
Proof.
  unfold subset. rewrite forallb_forall. intros H Hc. apply mem_In. apply H. exact Hc.
Qed.

Lemma get_project wcols r' c : forall cols,
  In c cols -> get cols c (project wcols cols r') = get wcols c r'.
Proof.
  induction cols as [|c0 cols IH]; intros Hin; [contradiction|].
  unfold project. simpl. destruct (String.eqb c c0) eqn:E.
  - apply String.eqb_eq in E. subst. reflexivity.
  - destruct Hin as [->|Hin]; [rewrite String.eqb_refl in E; discriminate|].
    apply IH. exact Hin.
Qed.

Lemma project_project wcols cols sel r' :
  (forall c, In c sel -> In c cols) ->
  project cols sel (project wcols cols r') = project wcols sel r'.
Proof.
  intros Hsub. unfold project at 1 3. apply map_ext_in. intros c Hc.
  apply get_project. apply Hsub. exact Hc.
Qed.

Lemma merge_rows_unchanged target source t :
  In t target -> source_matches source t = [] -> In t (merge_rows target source).
Proof.
  intros Ht Hno. unfold merge_rows. apply in_or_app. left.
  apply in_map_iff. exists t. split; [rewrite Hno; reflexivity | exact Ht].
Qed.

Lemma merge_rows_replaced target source t s ms :
  In t target -> source_matches source t = s :: ms -> In s (merge_rows target source).
Proof.
  intros Ht Hm. unfold merge_rows. apply in_or_app. left.
  apply in_map_iff. exists t. split; [rewrite Hm; reflexivity | exact Ht].
Qed.

Lemma source_matches_In source t s :
  In s (source_matches source t) ->
  In s source /\ c_key s = c_key t /\ no_nulls (c_key t) = true.
Proof.
  intros H. apply filter_In in H. destruct H as (Hs & Hm).
  pose proof (sql_key_match_eq _ _ Hm) as E.
  split; [exact Hs|]. split; [exact E|].
  rewrite <- E. eapply sql_key_match_no_nulls. exact Hm.
Qed.

(** Of every source row some source row of the same key is in the table
    after the merge. *)
Lemma merge_has_source_key target source s :
  In s source ->
  exists s', In s' (merge_rows target source) /\ In s' source /\ c_key s' = c_key s.
Proof.
  intros Hs.
  destruct (existsb (fun t => sql_key_match (c_key s) (c_key t)) target) eqn:E.
  - apply existsb_exists in E. destruct E as (t & Ht & Hm).
    assert (Hin : In s (source_matches source t)) by (apply filter_In; split; assumption).
    destruct (source_matches source t) as [|s0 ms] eqn:Hsm; [contradiction|].
    assert (H0 : In s0 (source_matches source t)) by (rewrite Hsm; left; reflexivity).
    apply source_matches_In in H0. destruct H0 as (Hs0 & Hk0 & _).
    exists s0. split; [eapply merge_rows_replaced; eassumption|].
    split; [exact Hs0|]. apply sql_key_match_eq in Hm. congruence.
  - exists s. split; [|split; [exact Hs | reflexivity]].
    unfold merge_rows. apply in_or_app. right. apply filter_In.
    split; [exact Hs|]. rewrite E. reflexivity.
Qed.

Lemma merge_keeps_cached target source k h :
  cached_as target k h ->
  (forall s, In s source -> c_key s <> k) ->
  cached_as (merge_rows target source) k h.
Proof.
  intros ((c0 & Hc0 & Ha0 & Hm0) & Hall) Hother. split.
  - exists c0. split; [|split; assumption].
    apply merge_rows_unchanged; [exact Hc0|].
    destruct (source_matches source c0) as [|s ms] eqn:E; [reflexivity|].
    assert (Hs : In s (source_matches source c0)) by (rewrite E; left; reflexivity).
    apply source_matches_In in Hs. destruct Hs as (Hs & Hk & _).
    apply sql_key_match_eq in Hm0. exfalso. apply (Hother s Hs). congruence.
  - intros c Hc Ha Hm. apply merge_rows_In in Hc. destruct Hc as [(Hc & _)|Hc].
    + apply Hall; assumption.
    + apply sql_key_match_eq in Hm. exfalso. apply (Hother c Hc). congruence.
Qed.

Section Idempotence.

Variable hash : list value -> Z.
Variable p : CachedLoaderParameters.
Variable dfd : DataFrame.
Variable offered : list (list value).
Variable written : DataFrame.
Variable ts : Z.

Hypothesis keys_in_frame : forall c, In c (key_cols p) -> In c (columns dfd).
Hypothesis unique_keys :
  forall r1 r2, In r1 (rows dfd) -> In r2 (rows dfd) ->
                incoming_key p (columns dfd) r1 = incoming_key p (columns dfd) r2 ->
                r1 = r2.
Hypothesis offered_incoming : forall r, In r offered -> In r (filter_null_keys p dfd).
Hypothesis all_reported :
  map (project (columns written) (columns dfd)) (rows written) = offered.

Lemma update_row_facts s :
  In s (written_cache_rows hash p ts written (columns dfd)) ->
  exists r, In r offered
            /\ c_key s = incoming_key p (columns dfd) r
            /\ c_rowHash s = Some (row_hash hash (columns dfd) r)
            /\ active s = true.
Proof.
  unfold written_cache_rows. intros Hs.
  apply in_map_iff in Hs. destruct Hs as (r' & <- & Hr').
  exists (project (columns written) (columns dfd) r'). split; [|split; [|split]].
  - rewrite <- all_reported. apply in_map. exact Hr'.
  - simpl. unfold incoming_key. symmetry. apply project_project. exact keys_in_frame.
  - simpl. unfold row_hash, star. rewrite project_project by auto. reflexivity.
  - reflexivity.
Qed.

Lemma offered_has_update r :
  In r offered ->
  exists s, In s (written_cache_rows hash p ts written (columns dfd))
            /\ c_key s = incoming_key p (columns dfd) r.
Proof.
  intros Hr. rewrite <- all_reported in Hr. apply in_map_iff in Hr.
  destruct Hr as (r' & <- & Hr').
  exists (mkCacheRow (project (columns written) (key_cols p) r')
                     (Some (hash (project (columns written) (columns dfd) r')))
                     (Some ts) None
                     (project (columns written) (cache_id_cols p) r')).
  split.
  - unfold written_cache_rows. apply in_map_iff. exists r'. split; auto.
  - simpl. unfold incoming_key. symmetry. apply project_project. exact keys_in_frame.
Qed.

Lemma update_row_for r s :
  In r (filter_null_keys p dfd) ->
  In s (written_cache_rows hash p ts written (columns dfd)) ->
  c_key s = incoming_key p (columns dfd) r ->
  c_rowHash s = Some (row_hash hash (columns dfd) r) /\ active s = true.
Proof.
  intros Hr Hs Hk. destruct (update_row_facts s Hs) as (r0 & Hr0 & Hk0 & Hh0 & Ha0).
  assert (E : r0 = r).
  { apply unique_keys.
    - apply offered_incoming, filter_null_keys_In in Hr0. apply Hr0.
    - apply filter_null_keys_In in Hr. apply Hr.
    - congruence. }
  subst r0. split; assumption.
Qed.

(** After the merge of the written rows every incoming row that was offered
    to the write operation, or was cached with its hash before, is cached
    with its hash. *)
Lemma write_merge_caches target r :
  In r (filter_null_keys p dfd) ->
  In r offered
  \/ cached_as target (incoming_key p (columns dfd) r) (row_hash hash (columns dfd) r) ->
  cached_as (merge_rows target (written_cache_rows hash p ts written (columns dfd)))
            (incoming_key p (columns dfd) r) (row_hash hash (columns dfd) r).
Proof.
  intros Hr Hcase.
  assert (Hnn : no_nulls (incoming_key p (columns dfd) r) = true).
  { apply filter_null_keys_In in Hr. apply Hr. }
  assert (Hsource : forall c, In c (written_cache_rows hash p ts written (columns dfd)) ->
            sql_key_match (incoming_key p (columns dfd) r) (c_key c) = true ->
            c_rowHash c = Some (row_hash hash (columns dfd) r) /\ active c = true).
  { intros c Hc Hm. apply update_row_for; [exact Hr | exact Hc|].
    symmetry. apply sql_key_match_eq. exact Hm. }
  destruct Hcase as [Hoff | ((c0 & Hc0 & Ha0 & Hm0) & Hall)].
  - destruct (offered_has_update r Hoff) as (s & Hs & Hk).
    split.
    + destruct (merge_has_source_key target
                  (written_cache_rows hash p ts written (columns dfd)) s Hs)
        as (s' & Hin & Hs' & Hk').
      assert (Hm : sql_key_match (incoming_key p (columns dfd) r) (c_key s') = true).
      { rewrite Hk', Hk. apply sql_key_match_refl. exact Hnn. }
      exists s'. split; [exact Hin|]. split; [|exact Hm].
      apply (Hsource s' Hs' Hm).
    + intros c Hc Ha Hm. apply merge_rows_In in Hc. destruct Hc as [(Hc & Hno)|Hc].
      * exfalso. revert Hno. apply (source_matches_key _ _ s Hs).
        -- apply sql_key_match_eq in Hm. congruence.
        -- apply sql_key_match_eq in Hm. rewrite <- Hm. exact Hnn.
      * apply (Hsource c Hc Hm).
  - split.
    + destruct (source_matches (written_cache_rows hash p ts written (columns dfd)) c0)
        as [|s ms] eqn:E.
      * exists c0. split; [|split; assumption].
        apply merge_rows_unchanged; assumption.
      * assert (Hs : In s (source_matches
                             (written_cache_rows hash p ts written (columns dfd)) c0))
          by (rewrite E; left; reflexivity).
        apply source_matches_In in Hs. destruct Hs as (Hs & Hk & _).
        assert (Hm : sql_key_match (incoming_key p (columns dfd) r) (c_key s) = true)
          by (rewrite Hk; exact Hm0).
        exists s. split; [eapply merge_rows_replaced; eassumption|].
        split; [|exact Hm]. apply (Hsource s Hs Hm).
    + intros c Hc Ha Hm. apply merge_rows_In in Hc. destruct Hc as [(Hc & _)|Hc].
      * apply Hall; assumption.
      * apply (Hsource c Hc Hm).
Qed.

End Idempotence.

Lemma forallb_false {A} (f : A -> bool) l :
  forallb f l = false -> exists x, In x l /\ f x = false.
Proof.
  induction l as [|a l IH]; simpl; [discriminate|].
  destruct (f a) eqn:E; simpl.
  - intros H. destruct (IH H) as (x & Hx & Hf). exists x. split; [right|]; assumption.
  - intros _. exists a. split; [left; reflexivity | exact E].
Qed.

(** In a reduction every incoming row is offered for writing or is cached
    with its hash. *)
Lemma first_reduction_cases hash p now dfd table_rows r :
  In r (filter_null_keys p dfd) ->
  In r (rows (to_be_written
                (discard_non_new_rows_against_cache hash p now dfd
                   (filter active table_rows))))
  \/ cached_as table_rows (incoming_key p (columns dfd) r)
               (row_hash hash (columns dfd) r).
Proof.
  intros Hr.
  set (k := incoming_key p (columns dfd) r).
  set (h := row_hash hash (columns dfd) r).
  set (cache := filter active table_rows).
  destruct (filter (fun c => sql_key_match k (c_key c)) cache) as [|c0 ms] eqn:Hmatches.
  - left. apply new_row_is_written; [exact Hr|].
    intros c Hc. fold k. destruct (sql_key_match k (c_key c)) eqn:E; [|reflexivity].
    assert (Hin : In c (filter (fun c => sql_key_match k (c_key c)) cache))
      by (apply filter_In; split; assumption).
    rewrite Hmatches in Hin. contradiction.
  - destruct (forallb (fun c => match c_rowHash c with
                                | Some h' => h' =? h
                                | None => true
                                end) (c0 :: ms)) eqn:Hall.
    + right. rewrite <- Hmatches in Hall. rewrite forallb_forall in Hall. split.
      * assert (H0 : In c0 (filter (fun c => sql_key_match k (c_key c)) cache))
          by (rewrite Hmatches; left; reflexivity).
        apply filter_In in H0. destruct H0 as (H0 & Hm0).
        apply filter_In in H0. destruct H0 as (H0 & Ha0).
        exists c0. auto.
      * intros c Hc Ha Hm.
        assert (Hin : In c (filter (fun c => sql_key_match k (c_key c)) cache)).
        { apply filter_In. split; [|exact Hm]. apply filter_In. split; assumption. }
        specialize (Hall c Hin). apply active_spec in Ha. destruct Ha as (_ & Hh & _).
        destruct (c_rowHash c) as [h'|]; [|contradiction].
        apply Z.eqb_eq in Hall. congruence.
    + left. apply forallb_false in Hall. destruct Hall as (c & Hc & Hne).
      rewrite <- Hmatches in Hc. apply filter_In in Hc. destruct Hc as (Hc & Hm).
      destruct (c_rowHash c) as [h'|] eqn:Hh; [|discriminate].
      apply (changed_row_is_written hash p now dfd cache r c h'); try assumption.
      apply Z.eqb_neq. exact Hne.
Qed.




(** The cache table after a call of [save] that completed, the write
    operation having returned the frame [written]. *)
Lemma save_completed_table hash clock df w w1 written :
  write_operation (cls (loader w)) (to_be_written (reduction hash clock df w))
  = Ok (Some written) ->
  save hash clock df w = (Ok tt, w1) ->
  subset (key_cols (params (loader w))) (columns df) = true
  /\ params (loader w1) = params (loader w)
  /\ exists after_write,
       after_write
       = merge_rows (t_current (table w))
           (written_cache_rows hash (params (loader w)) (written_at clock) written
              (columns df))
       /\ (t_current (table w1) = after_write
           \/ exists deleted,
                delete_operation (cls (loader w))
                  (to_be_deleted (reduction hash clock df w)) = Ok (Some deleted)
                /\ t_current (table w1)
                   = merge_rows after_write
                       (prepare_deleted_cache_update (deleted_at clock) deleted)).
Proof.
  intros Hop Hsave.
  destruct (subset (key_cols (params (loader w))) (columns df)) eqn:Hsub.
  2:{ rewrite save_missing_key_columns in Hsave by exact Hsub. discriminate. }
  split; [reflexivity|].
  rewrite save_runs_branches in Hsave by exact Hsub. unfold bind in Hsave.
  set (result := reduction hash clock df w) in *.
  pose proof (write_branch_effect hash (params (loader w)) clock (columns df) result w)
    as Hw. cbv zeta in Hw.
  destruct (write_branch hash (params (loader w)) clock (columns df) result w)
    as [o1 w0] eqn:E1.
  simpl fst in Hw. simpl snd in Hw. destruct Hw as (Hp1 & Hc1 & _ & _ & Hcase1).
  destruct o1 as [[]|e1]; [|discriminate].
  rewrite Hop in Hcase1.
  destruct (prepare_written_cache_update hash (params (loader w)) (written_at clock)
              written (columns df)) as [update|e] eqn:Hprep;
    [|destruct Hcase1; discriminate].
  apply prepare_written_rows in Hprep.
  destruct (ambiguous (t_current (table w)) update); [destruct Hcase1; discriminate|].
  destruct Hcase1 as (_ & Ht1).
  pose proof (delete_branch_effect clock result w0) as Hd. cbv zeta in Hd.
  rewrite Hsave in Hd. simpl fst in Hd. simpl snd in Hd.
  destruct Hd as (Hp2 & _ & _ & _ & Hcase2).
  split; [congruence|].
  exists (t_current (table w0)). split; [rewrite Ht1, Hprep; reflexivity|].
  rewrite Hc1 in Hcase2.
  destruct (delete_operation (cls (loader w)) (to_be_deleted result))
    as [[deleted|]|e]; cbv zeta in Hcase2.
  - destruct (ambiguous (t_current (table w0)) _); [destruct Hcase2; discriminate|].
    right. exists deleted. split; [reflexivity | apply Hcase2].
  - left. apply Hcase2.
  - destruct Hcase2; discriminate.
Qed.




(** * Further properties of the loader *)

(** ** The checks at construction and at the start of [save] *)

Lemma subset_spec xs ys : subset xs ys = true <-> forall c, In c xs -> In c ys.
Proof.
  unfold subset. rewrite forallb_forall. split.
  - intros H c Hc. apply mem_In. apply H. exact Hc.
  - intros H c Hc. apply mem_In. apply H. exact Hc.
Qed.

Lemma set_eq_spec xs ys : set_eq xs ys = true <-> forall c, In c xs <-> In c ys.
Proof.
  unfold set_eq. rewrite andb_true_iff, !subset_spec. split.
  - intros (H1 & H2) c. split; auto.
  - intros H. split; intros c Hc; apply H; exact Hc.
Qed.

(** X1: a batch that lacks a key column makes [save] raise an
    AssertionError at once: nothing is read from the cache, no operation is
    called and the world stays as it was. *)
Theorem save_rejects_batch_without_key_column hash clock df w col :
  In col (key_cols (params (loader w))) ->
  ~ In col (columns df) ->
  save hash clock df w
  = (Raise (AssertionError "The key columns must be given in the input dataframe."), w).
Proof.
  intros Hkey Hmissing. apply save_missing_key_columns.
  destruct (subset _ _) eqn:E; [|reflexivity].
  exfalso. apply Hmissing. eapply subset_In; eassumption.
Qed.

Lemma save_rejects_batch_without_key_column_witness :
  let w := Fixture.world_of Fixture.params0 Fixture.writer
             [mkCacheRow [VInt 7] (Some 5) (Some 1000000000) None []] in
  save Fixture.demo_hash Fixture.clock0 (mkDF ["val"] [[VStr "a"]]) w
  = (Raise (AssertionError "The key columns must be given in the input dataframe."), w).
Proof.
  cbv zeta.
  apply (save_rejects_batch_without_key_column Fixture.demo_hash Fixture.clock0
           (mkDF ["val"] [[VStr "a"]])
           (Fixture.world_of Fixture.params0 Fixture.writer
              [mkCacheRow [VInt 7] (Some 5) (Some 1000000000) None []])
           "id").
  - left. reflexivity.
  - simpl. intros [H|[]]. discriminate.
Defined.

(** X2: construction compares the columns of the cache table with the
    expected ones as sets.  A loader is constructed only if every column of
    the table is expected and every expected column is in the table; a
    column missing or surplus raises an AssertionError whatever the class;
    and the order and repetition of the table's columns play no part. *)
Theorem init_compares_columns_as_sets p c t :
  (forall l, init p c t = Ok l ->
             forall col, In col (t_columns t) <-> In col (expected_schema p))
  /\ ((exists col, In col (expected_schema p) /\ ~ In col (t_columns t))
      \/ (exists col, In col (t_columns t) /\ ~ In col (expected_schema p)) ->
      exists msg, init p c t = Raise (AssertionError msg))
  /\ (forall t',
         (forall col, In col (t_columns t') <-> In col (t_columns t)) ->
         forall l, init p c t = Ok l -> init p c t' = Ok l).
Proof.
  assert (Hok : forall t0 l, init p c t0 = Ok l ->
                  validate p c t0 = Ok tt /\ l = mkLoader p c 0 0).
  { intros t0 l H. unfold init in H.
    destruct (validate p c t0) as [[]|e]; [|discriminate].
    injection H as <-. split; reflexivity. }
  split; [|split].
  - intros l H. apply Hok in H. destruct H as (H & _).
    apply validate_ok_iff in H. destruct H as (H & _).
    apply set_eq_spec. exact H.
  - intros Hdiff.
    destruct (validate_raises_assertion p c t) as [E|(msg & E)].
    + exfalso. apply validate_ok_iff in E. destruct E as (E & _).
      rewrite set_eq_spec in E.
      destruct Hdiff as [(col & Hin & Hout)|(col & Hin & Hout)];
        apply Hout, E, Hin.
    + exists msg. unfold init. rewrite E. reflexivity.
  - intros t' Hsame l H. apply Hok in H. destruct H as (H & ->).
    apply validate_ok_iff in H. destruct H as (Hs & Ho & Hb).
    assert (E : validate p c t' = Ok tt).
    { apply validate_ok_iff. split; [|split; assumption].
      apply set_eq_spec. intros col. rewrite Hsame.
      apply set_eq_spec. exact Hs. }
    unfold init. rewrite E. reflexivity.
Qed.

Lemma init_compares_columns_as_sets_witness :
  exists msg,
    init Fixture.params0 Fixture.writer
         (mkTable ["id"; "rowHash"; "loadedTime"] [] [])
    = Raise (AssertionError msg).
Proof.
  apply (proj1 (proj2 (init_compares_columns_as_sets Fixture.params0 Fixture.writer
                         (mkTable ["id"; "rowHash"; "loadedTime"] [] [])))).
  left. exists "deletedTime". split.
  - simpl. auto.
  - simpl. intros [H|[H|[H|[]]]]; discriminate.
Defined.

(** ** Rows the reducer lets through *)








Lemma window_sort_of_ties l :
  (forall x y, In x l -> In y l -> window_leb x y = true) -> window_sort l = l.
Proof.
  induction l as [|x l IH]; intros Hties; [reflexivity|].
  simpl. rewrite IH by (intros a b Ha Hb; apply Hties; right; assumption).
  destruct l as [|y l]; [reflexivity|].
  simpl. rewrite Hties; [reflexivity | left; reflexivity | right; left; reflexivity].
Qed.



(** ** The ttl rules *)








(** ** The merge statement of [_load_cache] *)

Lemma replaced_row_keeps_key source t :
  c_key (match source_matches source t with s :: _ => s | [] => t end) = c_key t.
Proof.
  destruct (source_matches source t) as [|s ms] eqn:E; [reflexivity|].
  assert (Hs : In s (source_matches source t)) by (rewrite E; left; reflexivity).
  apply source_matches_In in Hs. apply Hs.
Qed.

Lemma merge_rows_keys target source :
  keys_of (merge_rows target source)
  = keys_of target ++ keys_of (inserted_rows target source).
Proof.
  unfold merge_rows, keys_of, inserted_rows. rewrite map_app, map_map. f_equal.
  apply map_ext. intros t. apply replaced_row_keeps_key.
Qed.

(** X8: the merge keeps the key of every row of the table in its place and
    adds, after them, the source rows that match no row of the table: no
    key of the table is lost and the table grows by the rows inserted. *)
Theorem merge_keeps_keys_and_appends_new target source :
  keys_of (merge_rows target source)
  = keys_of target ++ keys_of (inserted_rows target source)
  /\ List.length (merge_rows target source)
     = (List.length target + List.length (inserted_rows target source))%nat.
Proof.
  pose proof (merge_rows_keys target source) as Hk.
  split; [exact Hk|].
  rewrite <- (length_map c_key (merge_rows target source)).
  fold (keys_of (merge_rows target source)). rewrite Hk.
  unfold keys_of. rewrite length_app, !length_map. reflexivity.
Qed.

Lemma same_key_same_row rows_ a b :
  unique_keys rows_ -> In a rows_ -> In b rows_ -> c_key a = c_key b -> a = b.
Proof.
  unfold unique_keys, keys_of. induction rows_ as [|x l IH]; [contradiction|].
  simpl. intros Hnd Ha Hb Hk. inversion Hnd as [|? ? Hnotin Hnd']; subst.
  destruct Ha as [<-|Ha], Hb as [<-|Hb].
  - reflexivity.
  - exfalso. apply Hnotin. rewrite Hk. apply in_map. exact Hb.
  - exfalso. apply Hnotin. rewrite <- Hk. apply in_map. exact Ha.
  - apply IH; assumption.
Qed.

(** X10: merging the same source a second time changes no row: with source
    rows of distinct keys without NULL, the table after the second merge is
    the table after the first. *)
Theorem merge_twice_is_merge_once target source :
  unique_keys source -> keys_not_null source ->
  merge_rows (merge_rows target source) source = merge_rows target source.
Proof.
  intros Huniq Hnn.
  set (merged := merge_rows target source).
  assert (Hfix : forall t', In t' merged ->
                   match source_matches source t' with s :: _ => s | [] => t' end = t').
  { intros t' Ht'. destruct (source_matches source t') as [|s ms] eqn:E; [reflexivity|].
    assert (Hs : In s (source_matches source t')) by (rewrite E; left; reflexivity).
    apply source_matches_In in Hs. destruct Hs as (Hs & Hk & _).
    apply merge_rows_In in Ht'. destruct Ht' as [(_ & Hno)|Ht'].
    - rewrite Hno in E. discriminate.
    - apply (same_key_same_row source s t' Huniq Hs Ht' Hk). }
  unfold merge_rows at 1. fold merged.
  rewrite (map_ext_in _ (fun t => t) merged Hfix), map_id.
  rewrite filter_none; [apply app_nil_r|].
  apply Forall_forall. intros s Hs. apply negb_false_iff. apply existsb_exists.
  destruct (merge_has_source_key target source s Hs) as (s' & Hin & _ & Hk).
  exists s'. split; [exact Hin|]. rewrite Hk. apply sql_key_match_refl, Hnn, Hs.
Qed.

Lemma merge_twice_is_merge_once_witness :
  let old := mkCacheRow [VInt 1] (Some 5) (Some 1000000000) None [] in
  let update := [mkCacheRow [VInt 1] (Some 6) (Some 2000000000) None [];
                 mkCacheRow [VInt 2] (Some 7) (Some 2000000000) None []] in
  merge_rows (merge_rows [old] update) update = merge_rows [old] update.
Proof.
  cbv zeta.
  apply (merge_twice_is_merge_once
           [mkCacheRow [VInt 1] (Some 5) (Some 1000000000) None []]
           [mkCacheRow [VInt 1] (Some 6) (Some 2000000000) None [];
            mkCacheRow [VInt 2] (Some 7) (Some 2000000000) None []]).
  - unfold unique_keys. simpl.
    constructor; [intros [H|[]]; discriminate|].
    constructor; [intros [] | constructor].
  - intros c [<-|[<-|[]]]; reflexivity.
Defined.

(** ** One row for each key *)

Lemma NoDup_map_filter {A B} (g : A -> B) (f : A -> bool) l :
  NoDup (map g l) -> NoDup (map g (filter f l)).
Proof.
  induction l as [|a l IH]; simpl; intros H; [constructor|].
  inversion H as [|? ? Hnotin Hnd]; subst.
  destruct (f a); simpl; [|apply IH; exact Hnd].
  constructor; [|apply IH; exact Hnd].
  intros Hin. apply Hnotin. apply in_map_iff in Hin. destruct Hin as (b & E & Hb).
  apply filter_In in Hb. apply in_map_iff. exists b. split; [exact E | apply Hb].
Qed.

Lemma drop_duplicate_rows_keys cols ks l :
  NoDup (map (project cols ks) (drop_duplicate_rows cols ks l)).
Proof.
  induction l as [|a l IH]; simpl; [constructor|].
  constructor; [|apply NoDup_map_filter; exact IH].
  intros Hin. apply in_map_iff in Hin. destruct Hin as (b & E & Hb).
  apply filter_In in Hb. destruct Hb as (_ & Hb). apply negb_true_iff in Hb.
  rewrite E in Hb.
  assert (T : key_eqb (project cols ks a) (project cols ks a) = true)
    by (apply key_eqb_eq; reflexivity).
  rewrite T in Hb. discriminate.
Qed.

(** Among rows of distinct keys at most one satisfies a test that fixes the
    key. *)
Lemma at_most_one_of_key (test : CacheRow -> bool) k rows_ :
  unique_keys rows_ ->
  (forall c, test c = true -> c_key c = k) ->
  filter test rows_ = [] \/ exists c, filter test rows_ = [c].
Proof.
  unfold unique_keys, keys_of. intros Huniq Hkey.
  induction rows_ as [|x l IH]; [left; reflexivity|].
  simpl in Huniq. inversion Huniq as [|? ? Hnotin Hnd]; subst.
  simpl. destruct (test x) eqn:Hx.
  - right. exists x. f_equal.
    destruct (IH Hnd) as [E|(c & E)]; [exact E|].
    exfalso. apply Hnotin.
    assert (Hc : In c (filter test l)) by (rewrite E; left; reflexivity).
    apply filter_In in Hc. destruct Hc as (Hc & Hmatch).
    rewrite (Hkey x Hx), <- (Hkey c Hmatch). apply in_map. exact Hc.
  - apply IH. exact Hnd.
Qed.

Lemma join_row_single hash p cols cache r :
  unique_keys cache -> map j_row (join_row hash p cols cache r) = [r].
Proof.
  intros Huniq. unfold join_row.
  destruct (at_most_one_of_key
              (fun c => sql_key_match (incoming_key p cols r) (c_key c))
              (incoming_key p cols r) cache Huniq) as [E|(c & E)].
  - intros c Hc. symmetry. apply sql_key_match_eq. exact Hc.
  - rewrite E. reflexivity.
  - rewrite E. reflexivity.
Qed.

Lemma joined_rows_of_unique_cache hash p df cache :
  unique_keys cache ->
  map j_row (joined_df_incoming hash p df cache) = filter_null_keys p df.
Proof.
  intros Huniq. unfold joined_df_incoming.
  induction (filter_null_keys p df) as [|r l IH]; [reflexivity|].
  simpl. rewrite map_app, join_row_single by exact Huniq. rewrite IH. reflexivity.
Qed.

Lemma limit_ranked_NoDup {B} (g : Prioritised -> B) limit ranked :
  NoDup (map g ranked) -> NoDup (map g (limit_ranked limit ranked)).
Proof.
  unfold limit_ranked. generalize 1. induction ranked as [|x l IH]; intros n H.
  - constructor.
  - simpl in H. inversion H as [|? ? Hnotin Hnd]; subst. simpl.
    destruct (within_limit limit (x, n)); simpl; [|apply IH; exact Hnd].
    constructor; [|apply IH; exact Hnd].
    intros Hin. apply Hnotin. apply in_map_iff in Hin. destruct Hin as (y & E & Hy).
    apply in_map_iff in Hy. destruct Hy as ((y' & k) & Ey & Hy). simpl in Ey. subst y'.
    apply filter_In in Hy. destruct Hy as (Hy & _). apply row_number_In_inv in Hy.
    apply in_map_iff. exists y. split; assumption.
Qed.

Lemma filtered_df_NoDup {B} (g : Prioritised -> B) hash p now df cache :
  NoDup (map g (prioritised hash p now df cache)) ->
  NoDup (map g (filtered_df hash p now df cache)).
Proof.
  intros H. unfold filtered_df. destruct (0 <? refresh_row_limit p); [|exact H].
  unfold apply_row_limit. apply limit_ranked_NoDup.
  eapply Permutation_NoDup; [|exact H].
  apply Permutation_map, window_sort_perm.
Qed.

Lemma written_keys_distinct hash p now df cache :
  unique_keys cache ->
  NoDup (map (incoming_key p (columns df)) (rows df)) ->
  NoDup (map (incoming_key p (columns df))
             (rows (to_be_written
                      (discard_non_new_rows_against_cache hash p now df cache)))).
Proof.
  intros Huniq Hbatch. simpl. rewrite map_map.
  apply filtered_df_NoDup. unfold prioritised. apply NoDup_map_filter.
  rewrite map_map. simpl.
  rewrite <- (map_map j_row (incoming_key p (columns df))).
  rewrite joined_rows_of_unique_cache by exact Huniq.
  unfold filter_null_keys. apply NoDup_map_filter. exact Hbatch.
Qed.

(** X11: when the active rows of the cache table have distinct keys, the
    frame [save] offers to the write operation has at most one row for each
    key, however often the batch repeats a key. *)
Theorem write_is_offered_one_row_per_key hash clock df w :
  unique_keys (filter active (t_current (table w))) ->
  NoDup (map (incoming_key (params (loader w)) (columns df))
             (rows (to_be_written (reduction hash clock df w)))).
Proof.
  intros Huniq. unfold reduction.
  apply (written_keys_distinct hash (params (loader w)) (now clock)
           (dropDuplicates (key_cols (params (loader w))) df)).
  - exact Huniq.
  - apply drop_duplicate_rows_keys.
Qed.

Lemma write_is_offered_one_row_per_key_witness :
  let w := Fixture.world_of Fixture.params0 Fixture.writer
             [mkCacheRow [VInt 1] (Some 0) (Some 1000000000) None []] in
  let df := mkDF ["id"; "val"]
                 [[VInt 1; VStr "a"]; [VInt 1; VStr "bb"]; [VInt 2; VStr "c"]] in
  NoDup (map (incoming_key Fixture.params0 ["id"; "val"])
             (rows (to_be_written
                      (reduction Fixture.demo_hash Fixture.clock0 df w)))).
Proof.
  cbv zeta.
  apply (write_is_offered_one_row_per_key Fixture.demo_hash Fixture.clock0
           (mkDF ["id"; "val"]
                 [[VInt 1; VStr "a"]; [VInt 1; VStr "bb"]; [VInt 2; VStr "c"]])
           (Fixture.world_of Fixture.params0 Fixture.writer
              [mkCacheRow [VInt 1] (Some 0) (Some 1000000000) None []])).
  unfold unique_keys. simpl. constructor; [intros [] | constructor].
Defined.

(** ** The branches of [save], step by step *)

Lemma write_branch_run hash p clock in_cols result w :
  write_branch hash p clock in_cols result w
  = match write_operation (cls (loader w)) (to_be_written result) with
    | Raise e => (Raise e, write_called (to_be_written result) w)
    | Ok None => (Ok tt, write_called (to_be_written result) w)
    | Ok (Some written) =>
        match prepare_written_cache_update hash p (written_at clock) written in_cols with
        | Raise e =>
            (Raise e,
             write_recorded (count written) (write_called (to_be_written result) w))
        | Ok update =>
            load_cache update
              (write_recorded (count written) (write_called (to_be_written result) w))
        end
    end.
Proof.
  destruct (write_operation (cls (loader w)) (to_be_written result))
    as [[written|]|e] eqn:Hop.
  - rewrite (write_branch_returns _ _ _ _ _ _ _ Hop).
    cbv [if_truthy truthy bind record_write lift].
    destruct (prepare_written_cache_update hash p (written_at clock) written in_cols);
      reflexivity.
  - rewrite (write_branch_returns _ _ _ _ _ _ _ Hop). reflexivity.
  - apply write_branch_raises. exact Hop.
Qed.

Lemma delete_branch_run clock result w :
  delete_branch clock result w
  = match delete_operation (cls (loader w)) (to_be_deleted result) with
    | Raise e => (Raise e, delete_called (to_be_deleted result) w)
    | Ok None => (Ok tt, delete_called (to_be_deleted result) w)
    | Ok (Some deleted) =>
        load_cache (prepare_deleted_cache_update (deleted_at clock) deleted)
                   (delete_called (to_be_deleted result) w)
    end.
Proof.
  cbv [delete_branch call_delete bind log if_truthy truthy delete_called].
  cbn [loader table trace params cls].
  destruct (delete_operation (cls (loader w)) (to_be_deleted result)) as [[deleted|]|e];
    reflexivity.
Qed.

(** X12: the frame the write operation returns must carry the key columns,
    every column of the incoming batch and the cache id columns.  When it
    lacks one of them, [save] raises once the write has been counted: the
    cache table is not updated and the delete operation is not called. *)
Theorem written_frame_must_carry_columns hash clock df w written col :
  subset (key_cols (params (loader w))) (columns df) = true ->
  write_operation (cls (loader w)) (to_be_written (reduction hash clock df w))
  = Ok (Some written) ->
  In col (key_cols (params (loader w)) ++ columns df
          ++ cache_id_cols (params (loader w))) ->
  ~ In col (columns written) ->
  exists lacking,
    ~ In lacking (columns written)
    /\ save hash clock df w
       = (Raise (AnalysisException lacking),
          mkWorld (mkLoader (params (loader w)) (cls (loader w))
                            (n_rows_all_writes (loader w) + count written)
                            (count written))
                  (table w)
                  (CalledWrite (to_be_written (reduction hash clock df w)) :: trace w)).
Proof.
  intros Hsub Hop Hcol Hlacks.
  rewrite save_runs_branches by exact Hsub. unfold bind at 1.
  rewrite write_branch_run, Hop. unfold prepare_written_cache_update.
  pose proof (missing_spec (columns written)
                (key_cols (params (loader w)) ++ columns df
                 ++ cache_id_cols (params (loader w)))) as Hm.
  destruct (missing _ _) as [lacking|].
  - exists lacking. split; [apply Hm | reflexivity].
  - exfalso. apply Hlacks. apply Hm. exact Hcol.
Qed.

Lemma written_frame_must_carry_columns_witness :
  let drop_val : WriteOp := fun df => Ok (Some (mkDF ["id"] [[VInt 1]; [VInt 2]])) in
  let w := Fixture.world_of Fixture.params0 (Subclass (Some drop_val) None) [] in
  exists lacking,
    ~ In lacking ["id"]
    /\ save Fixture.demo_hash Fixture.clock0 Fixture.batch w
       = (Raise (AnalysisException lacking),
          mkWorld (mkLoader Fixture.params0 (Subclass (Some drop_val) None) 2 2)
                  (table w) [CalledWrite Fixture.batch]).
Proof.
  cbv zeta.
  apply (written_frame_must_carry_columns Fixture.demo_hash Fixture.clock0 Fixture.batch
           (Fixture.world_of Fixture.params0
              (Subclass (Some (fun _ => Ok (Some (mkDF ["id"] [[VInt 1]; [VInt 2]]))))
                        None) [])
           (mkDF ["id"] [[VInt 1]; [VInt 2]]) "val").
  - reflexivity.
  - reflexivity.
  - simpl. auto.
  - simpl. intros [H|[]]. discriminate.
Defined.

(** X13: when the write branch has merged its cache update and the delete
    operation then raises, [save] raises that exception and the cache table
    keeps the merged update of the written rows. *)
Theorem delete_failure_keeps_written_cache hash clock df w written update e :
  subset (key_cols (params (loader w))) (columns df) = true ->
  write_operation (cls (loader w)) (to_be_written (reduction hash clock df w))
  = Ok (Some written) ->
  prepare_written_cache_update hash (params (loader w)) (written_at clock) written
    (columns df) = Ok update ->
  ambiguous (t_current (table w)) update = false ->
  delete_operation (cls (loader w)) (to_be_deleted (reduction hash clock df w))
  = Raise e ->
  save hash clock df w
  = (Raise e,
     mkWorld (mkLoader (params (loader w)) (cls (loader w))
                       (n_rows_all_writes (loader w) + count written) (count written))
             (commit (table w) (merge_rows (t_current (table w)) update))
             (CalledDelete (to_be_deleted (reduction hash clock df w))
              :: CalledLoadCache update
              :: CalledWrite (to_be_written (reduction hash clock df w))
              :: trace w)).
Proof.
  intros Hsub Hop Hprep Hclear Hdel.
  rewrite save_runs_branches by exact Hsub. unfold bind at 1.
  rewrite write_branch_run, Hop, Hprep, load_cache_run.
  cbn [write_recorded write_called loader table trace params cls].
  rewrite Hclear. rewrite delete_branch_run.
  cbn [loader table trace params cls]. rewrite Hdel. reflexivity.
Qed.

Lemma delete_failure_keeps_written_cache_witness :
  let failing : DeleteOp := fun _ => Raise (OperationError 2) in
  let w := Fixture.world_of Fixture.params0
             (Subclass (Some Fixture.write_all) (Some failing)) [] in
  exists w',
    save Fixture.demo_hash Fixture.clock0 Fixture.batch w = (Raise (OperationError 2), w')
    /\ keys_of (t_current (table w')) = [[VInt 1]; [VInt 2]].
Proof.
  cbv zeta. eexists. split.
  - apply (delete_failure_keeps_written_cache Fixture.demo_hash Fixture.clock0
             Fixture.batch
             (Fixture.world_of Fixture.params0
                (Subclass (Some Fixture.write_all)
                          (Some (fun _ => Raise (OperationError 2)))) [])
             Fixture.batch
             (written_cache_rows Fixture.demo_hash Fixture.params0 2000000000
                Fixture.batch ["id"; "val"])
             (OperationError 2)); reflexivity.
  - reflexivity.
Defined.

(** ** The key invariant of the cache table *)

Lemma unique_source_is_not_ambiguous target source :
  unique_keys source -> ambiguous target source = false.
Proof.
  intros Huniq. unfold ambiguous.
  destruct (existsb _ target) eqn:E; [|reflexivity].
  apply existsb_exists in E. destruct E as (t & _ & Hmany).
  apply Nat.ltb_lt in Hmany. exfalso.
  destruct (at_most_one_of_key (fun s => sql_key_match (c_key s) (c_key t)) (c_key t)
              source Huniq) as [E|(c & E)].
  - intros s Hs. apply sql_key_match_eq. exact Hs.
  - unfold source_matches in Hmany. rewrite E in Hmany. simpl in Hmany. lia.
  - unfold source_matches in Hmany. rewrite E in Hmany. simpl in Hmany. lia.
Qed.

Lemma merge_keeps_unique_keys target source :
  unique_keys target -> keys_not_null target ->
  unique_keys source -> keys_not_null source ->
  unique_keys (merge_rows target source) /\ keys_not_null (merge_rows target source).
Proof.
  intros Ht Hnt Hs Hns. split.
  - unfold unique_keys.
    rewrite merge_rows_keys.
    apply NoDup_app.
    + exact Ht.
    + unfold inserted_rows, keys_of. apply NoDup_map_filter. exact Hs.
    + intros k Hk Hins. apply in_map_iff in Hk. destruct Hk as (t & <- & Hin).
      apply in_map_iff in Hins. destruct Hins as (s & Hkey & Hsin).
      apply filter_In in Hsin. destruct Hsin as (_ & Hno).
      apply negb_true_iff in Hno.
      assert (Hex : existsb (fun t => sql_key_match (c_key s) (c_key t)) target = true).
      { apply existsb_exists. exists t. split; [exact Hin|].
        rewrite Hkey. apply sql_key_match_refl, Hnt, Hin. }
      rewrite Hex in Hno. discriminate.
  - intros c Hc. apply merge_rows_In in Hc. destruct Hc as [(Hc & _)|Hc]; auto.
Qed.

(** X9: after a merge with a source of distinct keys, each source row with
    a key without NULL is in the table and every row of the table with that
    key is that source row.  When moreover the keys of the table were
    distinct and without NULL and the source keys are without NULL, the
    source row is in the table once and no other row has its key. *)
Theorem merged_row_is_found_by_key target source s :
  unique_keys source -> In s source -> no_nulls (c_key s) = true ->
  In s (merge_rows target source)
  /\ (forall c, In c (merge_rows target source) -> c_key c = c_key s -> c = s)
  /\ (unique_keys target -> keys_not_null target -> keys_not_null source ->
      exists before after,
        merge_rows target source = before ++ s :: after
        /\ forall c, In c (before ++ after) -> c_key c <> c_key s).
Proof.
  intros Huniq Hs Hnn.
  assert (Hin : In s (merge_rows target source)).
  { destruct (merge_has_source_key target source s Hs) as (s' & Hin & Hs' & Hk).
    rewrite <- (same_key_same_row source s' s Huniq Hs' Hs Hk). exact Hin. }
  split; [exact Hin|]. split.
  - intros c Hc Hk. apply merge_rows_In in Hc. destruct Hc as [(Hc & Hno)|Hc].
    + exfalso. revert Hno. apply (source_matches_key _ _ s Hs); [congruence|].
      rewrite Hk. exact Hnn.
    + apply (same_key_same_row source c s Huniq Hc Hs Hk).
  - intros Ht Hnt Hns.
    destruct (merge_keeps_unique_keys target source Ht Hnt Huniq Hns) as (Hmerged & _).
    destruct (in_split _ _ Hin) as (before & after & E).
    exists before, after. split; [exact E|].
    intros c Hc Hk. unfold unique_keys, keys_of in Hmerged. rewrite E in Hmerged.
    rewrite map_app in Hmerged. simpl in Hmerged.
    apply NoDup_remove_2 in Hmerged. apply Hmerged.
    rewrite <- map_app, <- Hk. apply in_map. exact Hc.
Qed.

Lemma merged_row_is_found_by_key_witness :
  let old := mkCacheRow [VInt 1] (Some 5) (Some 1000000000) None [] in
  let other := mkCacheRow [VInt 2] (Some 7) (Some 1000000000) None [] in
  let new := mkCacheRow [VInt 1] (Some 6) (Some 2000000000) None [] in
  exists before after,
    merge_rows [old; other] [new] = before ++ new :: after
    /\ forall c, In c (before ++ after) -> c_key c <> c_key new.
Proof.
  cbv zeta.
  apply (proj2 (proj2 (merged_row_is_found_by_key
                         [mkCacheRow [VInt 1] (Some 5) (Some 1000000000) None [];
                          mkCacheRow [VInt 2] (Some 7) (Some 1000000000) None []]
                         [mkCacheRow [VInt 1] (Some 6) (Some 2000000000) None []]
                         (mkCacheRow [VInt 1] (Some 6) (Some 2000000000) None [])
                         ltac:(unfold unique_keys; simpl;
                               constructor; [intros [] | constructor])
                         ltac:(left; reflexivity)
                         eq_refl))).
  - unfold unique_keys. simpl.
    constructor; [intros [H|[]]; discriminate|].
    constructor; [intros [] | constructor].
  - intros c [<-|[<-|[]]]; reflexivity.
  - intros c [<-|[]]. reflexivity.
Defined.

Lemma load_cache_of_unique_source update w :
  unique_keys update ->
  load_cache update w
  = (Ok tt,
     mkWorld (loader w)
             (commit (table w) (merge_rows (t_current (table w)) update))
             (CalledLoadCache update :: trace w)).
Proof.
  intros Huniq. rewrite load_cache_run.
  rewrite unique_source_is_not_ambiguous by exact Huniq. reflexivity.
Qed.

Lemma written_update_keys_of hash p ts offered written :
  (forall c, In c (key_cols p) -> In c (columns offered)) ->
  reports_all_offered offered written ->
  keys_of (written_cache_rows hash p ts written (columns offered))
  = map (incoming_key p (columns offered)) (rows offered).
Proof.
  intros Hkeys Hall. unfold reports_all_offered in Hall. rewrite <- Hall.
  unfold keys_of, written_cache_rows. rewrite !map_map. apply map_ext.
  intros r'. simpl. unfold incoming_key. symmetry. apply project_project. exact Hkeys.
Qed.

Lemma delete_branch_keeps_keys clock result w :
  unique_keys (t_current (table w)) -> keys_not_null (t_current (table w)) ->
  deletes_offered_once (delete_operation (cls (loader w))) ->
  keys_not_null (to_be_deleted result) -> unique_keys (to_be_deleted result) ->
  unique_keys (t_current (table (snd (delete_branch clock result w))))
  /\ keys_not_null (t_current (table (snd (delete_branch clock result w))))
  /\ every_load_committed w (snd (delete_branch clock result w)).
Proof.
  intros Hu Hn Hop Hoffered Hoffered_unique. rewrite delete_branch_run.
  destruct (delete_operation (cls (loader w)) (to_be_deleted result))
    as [[deleted|]|e] eqn:E.
  - destruct (Hop _ _ E) as (Hincl & Hdu). specialize (Hdu Hoffered_unique).
    assert (Hsu : unique_keys (prepare_deleted_cache_update (deleted_at clock) deleted)).
    { unfold unique_keys, keys_of, prepare_deleted_cache_update.
      rewrite map_map. exact Hdu. }
    assert (Hsn : keys_not_null (prepare_deleted_cache_update (deleted_at clock) deleted)).
    { intros c Hc. unfold prepare_deleted_cache_update in Hc.
      apply in_map_iff in Hc. destruct Hc as (d & <- & Hd). simpl.
      apply Hoffered, Hincl, Hd. }
    rewrite (load_cache_of_unique_source _ _ Hsu). simpl.
    destruct (merge_keeps_unique_keys _ _ Hu Hn Hsu Hsn) as (H1 & H2).
    split; [exact H1|]. split; [exact H2|].
    unfold every_load_committed, latest_version. simpl. lia.
  - simpl. split; [exact Hu|]. split; [exact Hn|].
    unfold every_load_committed. simpl. lia.
  - simpl. split; [exact Hu|]. split; [exact Hn|].
    unfold every_load_committed. simpl. lia.
Qed.

Lemma every_load_committed_trans w1 w2 w3 :
  every_load_committed w1 w2 -> every_load_committed w2 w3 ->
  every_load_committed w1 w3.
Proof. unfold every_load_committed. lia. Qed.

(** X14: [save] keeps the cache table at one row for each key.  When the
    rows of the table have distinct keys without NULL, the batch is a
    well-formed frame, a write operation that returns a frame returns the
    rows it was offered, and a delete operation that returns rows returns
    offered rows, none twice, then after [save], completed or not, the rows
    of the table again have distinct keys without NULL, and every call of
    [_load_cache] that was made committed: no merge was refused. *)
Theorem save_keeps_one_row_per_key hash clock df w :
  unique_keys (t_current (table w)) ->
  keys_not_null (t_current (table w)) ->
  wf_frame df ->
  writes_all_offered (write_operation (cls (loader w))) ->
  deletes_offered_once (delete_operation (cls (loader w))) ->
  unique_keys (t_current (table (snd (save hash clock df w))))
  /\ keys_not_null (t_current (table (snd (save hash clock df w))))
  /\ every_load_committed w (snd (save hash clock df w)).
Proof.
  intros Hu Hn Hwf Hwrite Hdelete.
  destruct (subset (key_cols (params (loader w))) (columns df)) eqn:Hsub.
  2:{ rewrite save_missing_key_columns by exact Hsub. simpl.
      split; [exact Hu|]. split; [exact Hn|]. unfold every_load_committed. lia. }
  rewrite save_runs_branches by exact Hsub. unfold bind.
  set (result := reduction hash clock df w).
  assert (Hsnapshot : unique_keys (filter active (t_current (table w)))).
  { unfold unique_keys, keys_of. apply NoDup_map_filter. exact Hu. }
  assert (Hdn : keys_not_null (to_be_deleted result)).
  { intros c Hc. unfold result, reduction in Hc. simpl in Hc.
    apply filter_In in Hc. destruct Hc as (Hc & _).
    apply filter_In in Hc. apply Hn, Hc. }
  assert (Hdu : unique_keys (to_be_deleted result)).
  { unfold result, reduction. simpl. unfold unmatched_cache, unique_keys, keys_of.
    apply NoDup_map_filter. exact Hsnapshot. }
  assert (Hoffered_wf : wf_frame (to_be_written result)).
  { destruct Hwf as (Hnd & Hlen). split; [exact Hnd|].
    intros r Hr. apply offered_rows_in_batch in Hr. apply Hlen. exact Hr. }
  rewrite write_branch_run.
  destruct (write_operation (cls (loader w)) (to_be_written result))
    as [[written|]|e] eqn:Hop.
  - destruct (prepare_written_cache_update hash (params (loader w)) (written_at clock)
                written (columns df)) as [update|e] eqn:Hprep.
    + apply prepare_written_rows in Hprep.
      change (update = written_cache_rows hash (params (loader w)) (written_at clock)
                         written (columns (to_be_written result))) in Hprep.
      assert (Hkeys : keys_of update
                      = map (incoming_key (params (loader w))
                                          (columns (to_be_written result)))
                            (rows (to_be_written result))).
      { rewrite Hprep. apply written_update_keys_of.
        - intros c Hc. eapply subset_In; [exact Hsub | exact Hc].
        - apply (Hwrite _ _ Hoffered_wf Hop). }
      assert (Hsu : unique_keys update).
      { unfold unique_keys. rewrite Hkeys.
        apply (written_keys_distinct hash (params (loader w)) (now clock)
                 (dropDuplicates (key_cols (params (loader w))) df)).
        - exact Hsnapshot.
        - apply drop_duplicate_rows_keys. }
      assert (Hsn : keys_not_null update).
      { intros c Hc. apply (in_map c_key) in Hc. fold (keys_of update) in Hc.
        rewrite Hkeys in Hc. apply in_map_iff in Hc. destruct Hc as (r & <- & Hr).
        apply written_row_is_incoming, filter_null_keys_In in Hr. apply Hr. }
      rewrite (load_cache_of_unique_source _ _ Hsu).
      cbn [write_recorded write_called loader table trace params cls].
      destruct (merge_keeps_unique_keys _ _ Hu Hn Hsu Hsn) as (H1 & H2).
      match goal with
      | |- context [delete_branch clock result ?w1] =>
          destruct (delete_branch_keeps_keys clock result w1 H1 H2 Hdelete Hdn Hdu)
            as (G1 & G2 & G3)
      end.
      split; [exact G1|]. split; [exact G2|].
      eapply every_load_committed_trans; [|exact G3].
      unfold every_load_committed, latest_version. simpl. lia.
    + simpl. split; [exact Hu|]. split; [exact Hn|].
      unfold every_load_committed. simpl. lia.
  - match goal with
    | |- context [delete_branch clock result ?w1] =>
        destruct (delete_branch_keeps_keys clock result w1 Hu Hn Hdelete Hdn Hdu)
          as (G1 & G2 & G3)
    end.
    split; [exact G1|]. split; [exact G2|].
    eapply every_load_committed_trans; [|exact G3].
    unfold every_load_committed. simpl. lia.
  - simpl. split; [exact Hu|]. split; [exact Hn|].
    unfold every_load_committed. simpl. lia.
Qed.

Lemma write_all_writes_all_offered : writes_all_offered Fixture.write_all.
Proof.
  intros offered written (Hnd & Hlen) H. injection H as <-.
  unfold reports_all_offered.
  rewrite <- (map_id (rows offered)) at 2. apply map_ext_in.
  intros r Hr. apply project_self; [exact Hnd | apply Hlen; exact Hr].
Qed.

Lemma base_delete_deletes_offered_once : deletes_offered_once base_delete_operation.
Proof.
  intros offered deleted H. injection H as <-. split; [apply incl_refl | auto].
Qed.

Lemma save_keeps_one_row_per_key_witness :
  let w := Fixture.world_of Fixture.params0 Fixture.writer_and_deleter
             [mkCacheRow [VInt 1] (Some 0) (Some 1000000000) None [];
              mkCacheRow [VInt 7] (Some 5) (Some 1000000000) None []] in
  unique_keys (t_current (table (snd (save Fixture.demo_hash Fixture.clock0
                                        Fixture.batch w))))
  /\ keys_not_null (t_current (table (snd (save Fixture.demo_hash Fixture.clock0
                                             Fixture.batch w))))
  /\ every_load_committed w (snd (save Fixture.demo_hash Fixture.clock0 Fixture.batch w)).
Proof.
  cbv zeta.
  apply (save_keeps_one_row_per_key Fixture.demo_hash Fixture.clock0 Fixture.batch
           (Fixture.world_of Fixture.params0 Fixture.writer_and_deleter
              [mkCacheRow [VInt 1] (Some 0) (Some 1000000000) None [];
               mkCacheRow [VInt 7] (Some 5) (Some 1000000000) None []])).
  - unfold unique_keys. simpl.
    constructor; [intros [H|[]]; discriminate|].
    constructor; [intros [] | constructor].
  - intros c [<-|[<-|[]]]; reflexivity.
  - split.
    + simpl. constructor; [intros [H|[]]; discriminate|].
      constructor; [intros [] | constructor].
    + intros r [<-|[<-|[]]]; reflexivity.
  - apply write_all_writes_all_offered.
  - apply base_delete_deletes_offered_once.
Defined.

(** ** The counters of the loader *)

Lemma load_cache_loader update w : loader (snd (load_cache update w)) = loader w.
Proof.
  rewrite load_cache_run. destruct (ambiguous _ _); reflexivity.
Qed.

Lemma delete_branch_loader clock result w :
  loader (snd (delete_branch clock result w)) = loader w.
Proof.
  rewrite delete_branch_run.
  destruct (delete_operation _ _) as [[deleted|]|e]; try reflexivity.
  rewrite load_cache_loader. reflexivity.
Qed.

Lemma save_loader hash clock df w :
  loader (snd (save hash clock df w))
  = if subset (key_cols (params (loader w))) (columns df)
    then match write_operation (cls (loader w))
                 (to_be_written (reduction hash clock df w)) with
         | Ok (Some written) =>
             mkLoader (params (loader w)) (cls (loader w))
                      (n_rows_all_writes (loader w) + count written) (count written)
         | _ => loader w
         end
    else loader w.
Proof.
  destruct (subset (key_cols (params (loader w))) (columns df)) eqn:Hsub.
  2:{ rewrite save_missing_key_columns by exact Hsub. reflexivity. }
  rewrite save_runs_branches by exact Hsub. unfold bind.
  rewrite write_branch_run.
  destruct (write_operation _ _) as [[written|]|e]; try reflexivity.
  - destruct (prepare_written_cache_update _ _ _ _ _) as [update|e]; [|reflexivity].
    rewrite load_cache_run.
    destruct (ambiguous _ _); [reflexivity|].
    rewrite delete_branch_loader. reflexivity.
  - rewrite delete_branch_loader. reflexivity.
Qed.

Lemma count_nonneg df : 0 <= count df.
Proof. unfold count. lia. Qed.

Lemma save_keeps_counters_ordered hash clock df w :
  counters_ordered (loader w) ->
  counters_ordered (loader (snd (save hash clock df w)))
  /\ n_rows_all_writes (loader w)
     <= n_rows_all_writes (loader (snd (save hash clock df w))).
Proof.
  unfold counters_ordered. intros H. rewrite save_loader.
  destruct (subset _ _); [|lia].
  destruct (write_operation _ _) as [[written|]|e]; try lia.
  simpl. pose proof (count_nonneg written). lia.
Qed.

(** X15: [save] counts the rows of the frame the write operation returned:
    it sets [n_rows_last_write] to their number and adds it to
    [n_rows_all_writes], also when the cache update or the delete branch
    fails afterwards; when the write operation returns None or raises, or
    the batch lacks a key column, both counters stay as they were.  From a
    loader just constructed, after any sequence of calls the counters
    satisfy [0 <= n_rows_last_write <= n_rows_all_writes]. *)
Theorem write_counters_follow_returned_frames hash :
  (forall clock df w,
      loader (snd (save hash clock df w))
      = if subset (key_cols (params (loader w))) (columns df)
        then match write_operation (cls (loader w))
                     (to_be_written (reduction hash clock df w)) with
             | Ok (Some written) =>
                 mkLoader (params (loader w)) (cls (loader w))
                          (n_rows_all_writes (loader w) + count written) (count written)
             | _ => loader w
             end
        else loader w)
  /\ (forall p c t l tr calls,
         init p c t = Ok l ->
         counters_ordered (loader (run_saves hash calls (mkWorld l t tr)))).
Proof.
  split; [intros; apply save_loader|].
  intros p c t l tr calls Hinit.
  assert (Hrun : forall calls w, counters_ordered (loader w) ->
                                 counters_ordered (loader (run_saves hash calls w))).
  { clear. induction calls as [|[clock df] calls IH]; intros w Hw; [exact Hw|].
    unfold run_saves. simpl. apply IH.
    apply save_keeps_counters_ordered. exact Hw. }
  apply Hrun. unfold init in Hinit.
  destruct (validate p c t); [|discriminate]. injection Hinit as <-.
  unfold counters_ordered. simpl. lia.
Qed.

Lemma write_counters_follow_returned_frames_witness :
  counters_ordered
    (loader (run_saves Fixture.demo_hash
               [(Fixture.clock0, Fixture.batch); (Fixture.clock1, Fixture.batch)]
               (mkWorld (mkLoader Fixture.params0 Fixture.writer 0 0)
                        Fixture.empty_table []))).
Proof.
  apply (proj2 (write_counters_follow_returned_frames Fixture.demo_hash)
               Fixture.params0 Fixture.writer Fixture.empty_table).
  reflexivity.
Defined.

(** ** The calls [save] makes *)



(** * Properties of the Cosmos handle *)

Module CosmosFacts.

Import Cosmos.

Section Handle.

Variable Server : Type.
Variable recreate_container_by_name : string -> Server -> result unit * Server.
Variable write_table_by_name :
  DataFrame -> string -> option Z -> Server -> result unit * Server.

(** X17: [write_or_append] appends when the mode is ["append"]; for every
    other mode, ["overwrite"] included, it calls [overwrite] without the
    frame, which raises a TypeError before the server is touched: the
    container is neither recreated nor written. *)
Theorem write_or_append_never_overwrites (self : CosmosHandle) (df : DataFrame) :
  write_or_append Server recreate_container_by_name write_table_by_name self df "append"
  = append Server write_table_by_name self df
  /\ forall mode s,
       mode <> "append" ->
       exists msg,
         write_or_append Server recreate_container_by_name write_table_by_name
           self df mode s
         = (Raised (TypeError msg), s).
Proof.
  split; [reflexivity|].
  intros mode s Hmode. unfold write_or_append.
  destruct (String.eqb mode "append") eqn:E.
  - apply String.eqb_eq in E. contradiction.
  - eexists. reflexivity.
Qed.

End Handle.

Lemma write_or_append_never_overwrites_witness :
  let recreate := fun (_ : string) (s : nat) => (Returned tt, 0%nat) in
  let write := fun (df : DataFrame) (_ : string) (_ : option Z) (s : nat) =>
                 (Returned tt, (s + List.length (rows df))%nat) in
  exists msg,
    write_or_append nat recreate write (mkHandle "orders" None) Fixture.batch
      "overwrite" 5%nat
    = (Raised (TypeError msg), 5%nat).
Proof.
  cbv zeta.
  apply (proj2 (write_or_append_never_overwrites nat
                  (fun _ _ => (Returned tt, 0%nat))
                  (fun df _ _ s => (Returned tt, (s + List.length (rows df))%nat))
                  (mkHandle "orders" None) Fixture.batch)).
  discriminate.
Defined.

End CosmosFacts.

(** * What a completed call leaves in the cache *)

(** X18: after a call of [save] that completed, with a write operation that
    returned the rows it was offered and a delete operation that reports
    only keys it was offered, every key of the batch without NULL is in the
    active cache and all its active rows carry the hash of the batch row
    that [save] kept for the key, whatever the ttl settings and the row
    limit and whatever the cache held for the key before. *)
Theorem completed_save_caches_the_batch hash clock df w0 w1 written r :
  write_operation (cls (loader w0)) (to_be_written (reduction hash clock df w0))
  = Ok (Some written) ->
  reports_all_offered (to_be_written (reduction hash clock df w0)) written ->
  reports_only_offered (delete_operation (cls (loader w0))) ->
  save hash clock df w0 = (Ok tt, w1) ->
  In r (rows df) ->
  no_nulls (incoming_key (params (loader w0)) (columns df) r) = true ->
  exists kept,
    In kept (rows df)
    /\ incoming_key (params (loader w0)) (columns df) kept
       = incoming_key (params (loader w0)) (columns df) r
    /\ cached_as (t_current (table w1))
                 (incoming_key (params (loader w0)) (columns df) r)
                 (row_hash hash (columns df) kept).
Proof.
  intros Hop Hall Honly Hsave Hr Hnn.
  destruct (save_completed_table hash clock df w0 w1 written Hop Hsave)
    as (Hsub & _ & after_write & Hafter & Hfinal).
  set (p := params (loader w0)) in *.
  set (dfd := dropDuplicates (key_cols p) df).
  destruct (drop_duplicate_rows_represents (columns df) (key_cols p) (rows df) r Hr)
    as (kept & Hkept & Hkey).
  assert (Hin : In kept (filter_null_keys p dfd)).
  { apply filter_null_keys_In. split; [exact Hkept|].
    unfold incoming_key in *. simpl. rewrite Hkey. exact Hnn. }
  exists kept. split; [eapply drop_duplicate_rows_incl; exact Hkept|].
  split; [exact Hkey|].
  change (incoming_key p (columns df) r) with (project (columns df) (key_cols p) r).
  rewrite <- Hkey.
  change (cached_as (t_current (table w1)) (incoming_key p (columns dfd) kept)
                    (row_hash hash (columns dfd) kept)).
  assert (Hwrite : cached_as after_write (incoming_key p (columns dfd) kept)
                             (row_hash hash (columns dfd) kept)).
  { rewrite Hafter.
    apply (write_merge_caches hash p dfd
             (rows (to_be_written (reduction hash clock df w0)))).
    - intros c Hc. eapply subset_In; [exact Hsub | exact Hc].
    - intros r1 r2 H1 H2 Hk.
      exact (drop_duplicate_rows_unique (columns df) (key_cols p) (rows df)
               r1 r2 H1 H2 Hk).
    - intros r0 H0. apply written_row_is_incoming in H0. exact H0.
    - exact Hall.
    - exact Hin.
    - apply first_reduction_cases. exact Hin. }
  destruct Hfinal as [->|(deleted & Hdel & ->)]; [exact Hwrite|].
  apply merge_keeps_cached; [exact Hwrite|].
  intros s Hs Hk. unfold prepare_deleted_cache_update in Hs.
  apply in_map_iff in Hs. destruct Hs as (d & <- & Hd). simpl in Hk.
  assert (Hoffered : In (c_key d)
                        (keys_of (to_be_deleted (reduction hash clock df w0)))).
  { apply (Honly _ _ Hdel). apply in_map. exact Hd. }
  apply in_map_iff in Hoffered. destruct Hoffered as (d' & Hk' & Hd').
  apply (unmatched_cache_keys p dfd _ d') in Hd'. destruct Hd' as (_ & Hd').
  apply (Hd' kept Hin). rewrite Hk'. symmetry. exact Hk.
Qed.

Lemma completed_save_caches_the_batch_witness :
  let w0 := Fixture.world_of (Fixture.params_with 100 10 1) Fixture.writer_and_deleter
              [mkCacheRow [VInt 1] (Some 0) (Some 1000000000) (Some 1500000000) []] in
  let w1 := snd (save Fixture.demo_hash Fixture.clock0 Fixture.batch w0) in
  exists kept,
    In kept (rows Fixture.batch)
    /\ incoming_key (Fixture.params_with 100 10 1) ["id"; "val"] kept = [VInt 1]
    /\ cached_as (t_current (table w1)) [VInt 1]
                 (row_hash Fixture.demo_hash ["id"; "val"] kept).
Proof.
  cbv zeta.
  apply (completed_save_caches_the_batch Fixture.demo_hash Fixture.clock0 Fixture.batch
           (Fixture.world_of (Fixture.params_with 100 10 1) Fixture.writer_and_deleter
              [mkCacheRow [VInt 1] (Some 0) (Some 1000000000) (Some 1500000000) []])
           _ Fixture.batch [VInt 1; VStr "a"]).
  - reflexivity.
  - reflexivity.
  - intros offered deleted H. injection H as <-. apply incl_refl.
  - reflexivity.
  - left. reflexivity.
  - reflexivity.
Defined.
